(** * merge-to-md.js: merging files into one Markdown document with a File Index

    A shallow embedding of [llm-helpers/merge-to-md.js].  JavaScript strings
    are sequences of code units; the embedding uses [string], i.e. code units
    below 256.  Numbers that count lines are [nat].  The Node.js library
    functions the script calls ([String.prototype.*], [path.*], [RegExp]) are
    modelled in their own modules, restricted to the way the script uses
    them; the file system and the [git] command are an explicit environment. *)

From Stdlib Require Import Ascii DecimalString.
From Stdlib Require String.
From stdpp Require Import base list strings gmap sorting.

Local Open Scope stdpp_scope.

(** ** String.prototype and Array.prototype, as far as the script uses them *)

Module JS.

Definition LF : ascii := "010"%char.
Definition nl : string := String LF "".

(** White space removed by [trim]: TAB, LF, VT, FF, CR, SP and NBSP. *)
Definition isWhiteSpace (c : ascii) : bool :=
  match c with
  | "009" | "010" | "011" | "012" | "013" | " " | "160" => true
  | _ => false
  end%char.

Fixpoint trimStart (s : string) : string :=
  match s with
  | String c s' => if isWhiteSpace c then trimStart s' else s
  | EmptyString => EmptyString
  end.

Fixpoint trimEnd (s : string) : string :=
  match s with
  | String c s' =>
      match trimEnd s' with
      | EmptyString => if isWhiteSpace c then EmptyString else String c EmptyString
      | t => String c t
      end
  | EmptyString => EmptyString
  end.

Definition trim (s : string) : string := trimEnd (trimStart s).

(** A string is truthy when it is not empty. *)
Definition truthy (s : string) : bool :=
  match s with EmptyString => false | _ => true end.

Definition startsWith (s pre : string) : bool := String.prefix pre s.

Fixpoint includes (s sub : string) : bool :=
  String.prefix sub s ||
  match s with
  | String _ s' => includes s' sub
  | EmptyString => false
  end.

Fixpoint endsWith (s suf : string) : bool :=
  String.eqb s suf ||
  match s with
  | String _ s' => endsWith s' suf
  | EmptyString => false
  end.

Fixpoint dropStr (n : nat) (s : string) : string :=
  match n, s with
  | S n', String _ s' => dropStr n' s'
  | _, _ => s
  end.

Fixpoint takeStr (n : nat) (s : string) : string :=
  match n, s with
  | S n', String c s' => String c (takeStr n' s')
  | _, _ => EmptyString
  end.

(** [s.slice(a, b)] and [s.slice(a)] for indices [0 <= a <= b]. *)
Definition slice (a b : nat) (s : string) : string := takeStr (b - a) (dropStr a s).
Definition sliceFrom (a : nat) (s : string) : string := dropStr a s.

(** [s[i]]: [None] stands for [undefined]. *)
Definition charAt (i : nat) (s : string) : option ascii := String.get i s.

(** Adds a code unit to the first piece of a list of pieces. *)
Definition consHead (c : ascii) (pieces : list string) : list string :=
  match pieces with
  | p :: ps => String c p :: ps
  | [] => [String c EmptyString]
  end.

(** [s.split(re)] for a regular expression [re] that is one character
    class, such as [/\n/] and [/[/\\]/]. *)
Fixpoint splitClass (isSep : ascii → bool) (s : string) : list string :=
  match s with
  | EmptyString => [EmptyString]
  | String c s' =>
      if isSep c then EmptyString :: splitClass isSep s'
      else consHead c (splitClass isSep s')
  end.

(** [s.split(sep)] for a non-empty string [sep]: separators are found from
    left to right and do not overlap; [skip] counts the code units of a
    separator that is being passed over. *)
Fixpoint splitGo (sep : string) (skip : nat) (s : string) : list string :=
  match s with
  | EmptyString => [EmptyString]
  | String c s' =>
      match skip with
      | S k => splitGo sep k s'
      | O =>
          if String.prefix sep s
          then EmptyString :: splitGo sep (String.length sep - 1) s'
          else consHead c (splitGo sep 0 s')
      end
  end.

Definition split (sep : string) (s : string) : list string := splitGo sep 0 s.

(** [a.join(sep)]. *)
Definition join (sep : string) (pieces : list string) : string :=
  String.concat sep pieces.

(** [a.pop()] on a non-empty array, as an expression: its last element. *)
Definition pop (pieces : list string) : string := List.last pieces EmptyString.

(** [s.replace(/needle/g, repl)] for a literal [needle] and a replacement
    without [$]: every occurrence, found from left to right without
    overlap, is replaced. *)
Fixpoint replaceGo (needle repl : string) (skip : nat) (s : string) : string :=
  match s with
  | EmptyString => EmptyString
  | String c s' =>
      match skip with
      | S k => replaceGo needle repl k s'
      | O =>
          if String.prefix needle s
          then repl +:+ replaceGo needle repl (String.length needle - 1) s'
          else String c (replaceGo needle repl 0 s')
      end
  end.

Definition replaceAll (needle repl : string) (s : string) : string :=
  replaceGo needle repl 0 s.

(** [s.replace(/[class]/g, "\\$&")]: every code unit of the class gets a
    backslash in front. *)
Fixpoint escapeClass (inClass : ascii → bool) (s : string) : string :=
  match s with
  | EmptyString => EmptyString
  | String c s' =>
      if inClass c then String "\"%char (String c (escapeClass inClass s'))
      else String c (escapeClass inClass s')
  end.

(** [s.replace(/\//g, "-")] *)
Fixpoint slashesToHyphens (s : string) : string :=
  match s with
  | EmptyString => EmptyString
  | String c s' =>
      String (if Ascii.eqb c "/"%char then "-"%char else c) (slashesToHyphens s')
  end.

(** [s.replace(/^-+|-+$/g, "")] *)
Fixpoint stripHyphensStart (s : string) : string :=
  match s with
  | String c s' => if Ascii.eqb c "-"%char then stripHyphensStart s' else s
  | EmptyString => EmptyString
  end.

Fixpoint stripHyphensEnd (s : string) : string :=
  match s with
  | String c s' =>
      match stripHyphensEnd s' with
      | EmptyString => if Ascii.eqb c "-"%char then EmptyString else String c EmptyString
      | t => String c t
      end
  | EmptyString => EmptyString
  end.

Definition stripHyphens (s : string) : string :=
  stripHyphensEnd (stripHyphensStart s).

(** [a.sort()]: the default order compares strings code unit by code
    unit.  The order is total and antisymmetric, so every sorting
    algorithm returns the same array. *)
Definition sort (a : list string) : list string := merge_sort String.le a.

(** [String(n)] for a non-negative integer. *)
Definition numToString (n : nat) : string :=
  NilEmpty.string_of_uint (Nat.to_uint n).

End JS.

(** ** Exceptions

    [matchesGlob] builds a regular expression from user input, and
    [new RegExp] throws on a malformed one; the [git] command can fail.  Code
    that can throw returns a [result]. *)

Inductive exn :=
| SyntaxError     (* thrown by [new RegExp] *)
| ExecError       (* thrown by [execSync] when the command fails *)
| NotModelled.    (* regular expression syntax outside the modelled fragment *)

Inductive result (A : Type) :=
| Ok (a : A)
| Throw (e : exn).
Arguments Ok {A} a.
Arguments Throw {A} e.

#[export] Instance result_ret : MRet result := λ A a, Ok a.
#[export] Instance result_bind : MBind result :=
  λ A B f r, match r with Ok a => f a | Throw e => Throw e end.

(** [a.some(f)] and [a.filter(f)] for a callback that can throw: elements are
    visited from left to right, [some] stops at the first hit. *)
Fixpoint someM {A} (f : A → result bool) (l : list A) : result bool :=
  match l with
  | [] => Ok false
  | x :: l' => b ← f x; if b : bool then Ok true else someM f l'
  end.

Fixpoint filterM {A} (f : A → result bool) (l : list A) : result (list A) :=
  match l with
  | [] => Ok []
  | x :: l' => b ← f x; r ← filterM f l'; Ok (if b : bool then x :: r else r)
  end.

(** ** Node's [path] module (POSIX), as far as the script uses it *)

Module NodePath.
Import JS.

Definition isSlash (c : ascii) : bool := Ascii.eqb c "/"%char.

(** [path.basename(p)]: the last non-empty segment of [p], trailing
    slashes ignored; [""] when there is none. *)
Definition basename (p : string) : string :=
  List.last (List.filter truthy (splitClass isSlash p)) "".

(** The part of [s] from its last dot on, if it has a dot. *)
Fixpoint fromLastDot (s : string) : option string :=
  match s with
  | EmptyString => None
  | String c s' =>
      match fromLastDot s' with
      | Some e => Some e
      | None => if Ascii.eqb c "."%char then Some s else None
      end
  end.

(** [path.extname(p)]: from the last dot of the basename on; [""] when the
    basename has no dot, when its only dot is its first character, and
    when it is [".."]. *)
Definition extname (p : string) : string :=
  let b := basename p in
  if String.eqb b ".." then ""
  else match b with
       | String _ b' => default "" (fromLastDot b')
       | EmptyString => ""
       end.

End NodePath.

(** ** [RegExp], for the patterns that [matchesGlob] builds

    The fragment: the assertions [^] and [$], pattern characters, escaped
    syntax characters, [.], the class [[^/]], and the quantifiers [*] and
    [?], each with its lazy form.  No flags are set. *)

Module RegExp.

Inductive atom :=
| Lit (c : ascii)     (* a pattern character or an identity escape *)
| Dot                 (* [.]: any code unit but a line terminator *)
| NotSlash.           (* [[^/]] *)

Inductive quant := One | Opt | Star | OptLazy | StarLazy.

Inductive term :=
| AssertStart         (* [^] *)
| AssertEnd           (* [$] *)
| Atom (a : atom) (q : quant).

Definition isSyntaxCharacter (c : ascii) : bool :=
  match c with
  | "^" | "$" | "\" | "." | "*" | "+" | "?" | "(" | ")" | "[" | "]"
  | "{" | "}" | "|" => true
  | _ => false
  end%char.

Inductive mode :=
| Normal
| Escape              (* after a backslash *)
| Class1              (* after "[" *)
| Class2              (* after "[^" *)
| Class3.             (* after "[^/" *)

(** Parser state: the terms read so far, last one first. *)
Record pstate := PState { parsed : list term; pmode : mode }.

Definition push (t : term) (st : pstate) : result pstate :=
  Ok (PState (t :: parsed st) Normal).

(** A quantifier needs an atom in front of it; a second [?] makes the
    quantifier lazy; anything else is "Nothing to repeat". *)
Definition quantify (c : ascii) (st : pstate) : result pstate :=
  match parsed st with
  | Atom a q :: ts =>
      match q, Ascii.eqb c "*"%char with
      | One, true => Ok (PState (Atom a Star :: ts) Normal)
      | One, false => Ok (PState (Atom a Opt :: ts) Normal)
      | Opt, false => Ok (PState (Atom a OptLazy :: ts) Normal)
      | Star, false => Ok (PState (Atom a StarLazy :: ts) Normal)
      | _, _ => Throw SyntaxError
      end
  | _ => Throw SyntaxError
  end.

Definition step (st : pstate) (c : ascii) : result pstate :=
  match pmode st with
  | Normal =>
      match c with
      | "^" => push AssertStart st
      | "$" => push AssertEnd st
      | "\" => Ok (PState (parsed st) Escape)
      | "." => push (Atom Dot One) st
      | "[" => Ok (PState (parsed st) Class1)
      | "*" | "?" => quantify c st
      | "+" | "(" | ")" | "|" | "{" | "}" | "]" => Throw NotModelled
      | _ => push (Atom (Lit c) One) st
      end%char
  | Escape =>
      if isSyntaxCharacter c || Ascii.eqb c "/"%char
      then push (Atom (Lit c) One) st
      else Throw NotModelled
  | Class1 =>
      if Ascii.eqb c "^"%char then Ok (PState (parsed st) Class2)
      else Throw NotModelled
  | Class2 =>
      if Ascii.eqb c "/"%char then Ok (PState (parsed st) Class3)
      else Throw NotModelled
  | Class3 =>
      if Ascii.eqb c "]"%char then push (Atom NotSlash One) st
      else Throw NotModelled
  end.

Fixpoint parseFrom (st : pstate) (src : string) : result pstate :=
  match src with
  | EmptyString => Ok st
  | String c src' => st' ← step st c; parseFrom st' src'
  end.

(** [new RegExp(src)] *)
Definition new (src : string) : result (list term) :=
  st ← parseFrom (PState [] Normal) src;
  match pmode st with
  | Normal => Ok (reverse (parsed st))
  | _ => Throw SyntaxError
  end.

Definition isLineTerminator (c : ascii) : bool :=
  match c with "010" | "013" => true | _ => false end%char.

Definition atomMatches (a : atom) (c : ascii) : bool :=
  match a with
  | Lit c' => Ascii.eqb c' c
  | Dot => negb (isLineTerminator c)
  | NotSlash => negb (Ascii.eqb c "/"%char)
  end.

(** One code unit of [s] for the atom, then [k] on the rest. *)
Definition eat (a : atom) (k : string → bool) (s : string) : bool :=
  match s with
  | String c s' => atomMatches a c && k s'
  | EmptyString => false
  end.

(** Is there a match of the terms [r] that begins where [s] begins?
    [atStart] tells whether [s] is the whole input.  Every atom takes
    exactly one code unit, so a greedy and a lazy quantifier differ in the
    order in which the same alternatives are tried, not in whether one of
    them succeeds. *)
Fixpoint matchHere (r : list term) (atStart : bool) (s : string) : bool :=
  match r with
  | [] => true
  | AssertStart :: r' => atStart && matchHere r' atStart s
  | AssertEnd :: r' => negb (JS.truthy s) && matchHere r' atStart s
  | Atom a One :: r' => eat a (matchHere r' false) s
  | Atom a (Opt | OptLazy) :: r' =>
      eat a (matchHere r' false) s || matchHere r' atStart s
  | Atom a (Star | StarLazy) :: r' =>
      (fix star (atStart : bool) (s : string) : bool :=
         match s with
         | String c s' => (atomMatches a c && star false s') || matchHere r' atStart s
         | EmptyString => matchHere r' atStart s
         end) atStart s
  end.

(** [re.test(s)]: a match may begin at any index of [s]. *)
Fixpoint searchFrom (r : list term) (atStart : bool) (s : string) : bool :=
  matchHere r atStart s ||
  match s with
  | String _ s' => searchFrom r false s'
  | EmptyString => false
  end.

Definition test (r : list term) (s : string) : bool := searchFrom r true s.

End RegExp.

(** ** Pattern matching and the filters *)

Module Glob.
Import JS NodePath.

(** Path segments to exclude by default. *)
Definition DEFAULT_EXCLUDE_SEGMENTS : list string :=
  [ ".git"; "node_modules"; "temp"; "tmp"; ".tmp"; ".temp"; "vendor";
    ".venv"; ".turbo"; "dist"; "__pycache__" ].

Definition isSeparator (c : ascii) : bool :=
  Ascii.eqb c "/"%char || Ascii.eqb c "\"%char.

(** [a.includes(x)] on an array of strings. *)
Definition arrayIncludes (a : list string) (x : string) : bool :=
  existsb (String.eqb x) a.

Definition isDefaultExcluded (relPath : string) : bool :=
  let segments := List.filter truthy (splitClass isSeparator relPath) in
  existsb (arrayIncludes DEFAULT_EXCLUDE_SEGMENTS) segments.

(** The class [[.+^${}()|[\]\\]] of the first [replace]. *)
Definition isEscaped (c : ascii) : bool :=
  match c with
  | "." | "+" | "^" | "$" | "{" | "}" | "(" | ")" | "|" | "[" | "]" | "\" => true
  | _ => false
  end%char.

Definition escaped (p : string) : string :=
  replaceAll "*" "{{STAR}}"
    (replaceAll "**" "{{GLOBSTAR}}" (escapeClass isEscaped p)).

Definition reStr (p : string) : string :=
  replaceAll "{{STAR}}" "[^/]*" (replaceAll "{{GLOBSTAR}}" ".*" (escaped p)).

Definition matchesGlob (relPath pattern : string) : result bool :=
  let p := trim pattern in
  if negb (truthy p) then Ok false
  else if negb (includes p "*") then
    Ok (String.eqb relPath p || endsWith relPath ("/" +:+ p)
        || String.eqb (basename relPath) p)
  else
    re ← RegExp.new ("^" +:+ reStr p +:+ "$");
    Ok (RegExp.test re relPath).

Definition isExcluded (relPath : string) (patterns : list string) : result bool :=
  match patterns with
  | [] => Ok false
  | _ => someM (matchesGlob relPath) patterns
  end.

Definition isIncluded (relPath : string) (patterns : list string) : result bool :=
  match patterns with
  | [] => Ok true
  | _ => someM (matchesGlob relPath) patterns
  end.

(** The three pattern stages of [main]: default excludes, then include,
    then except. *)
Definition applyFilters (includeList exceptList filePaths : list string)
  : result (list string) :=
  let filePaths1 := List.filter (λ rel, negb (isDefaultExcluded rel)) filePaths in
  filePaths2 ← filterM (λ rel, isIncluded rel includeList) filePaths1;
  filterM (λ rel, b ← isExcluded rel exceptList; Ok (negb b)) filePaths2.

End Glob.

(** ** Building the document (the second half of [main]) *)

Module Doc.
Import JS NodePath.

(** File extension to Markdown fenced code block language. *)
Definition EXT_TO_LANG : gmap string string :=
  list_to_map
    [ (".ts", "typescript"); (".tsx", "tsx"); (".js", "javascript");
      (".jsx", "jsx"); (".mjs", "javascript"); (".cjs", "javascript");
      (".md", "markdown"); (".mdx", "mdx"); (".json", "json");
      (".css", "css"); (".scss", "scss"); (".html", "html");
      (".sql", "sql"); (".py", "python"); (".sh", "shell");
      (".yaml", "yaml"); (".yml", "yaml") ].

Definition fence : string := "```".

(** [EXT_TO_LANG[ext] ?? ""] with [ext = path.extname(relPath)] *)
Definition lang (relPath : string) : string :=
  default "" (EXT_TO_LANG !! extname relPath).

(** [lang ? lang + " " + relPath : relPath] *)
Definition opening (relPath : string) : string :=
  if truthy (lang relPath) then lang relPath +:+ " " +:+ relPath else relPath.

(** ["```" + opening + "\n" + content + "\n```\n"] *)
Definition block (relPath content : string) : string :=
  fence +:+ opening relPath +:+ nl +:+ content +:+ nl +:+ fence +:+ nl.

Global Arguments lang : simpl never.
Global Arguments opening : simpl never.
Global Arguments block : simpl never.

Definition tocHeader : string :=
  "# File Index" +:+ nl +:+ nl +:+ "| Path | Start | End |" +:+ nl +:+
  "|------|-------|-----|".

Definition lines (s : string) : list string := splitClass (Ascii.eqb LF) s.

Record entry := Entry { relPath : string; startLine : nat; endLine : nat }.

(** The loop [for (let i = 0; i < blocks.length; i++)], which reads
    [filePaths[i]] next to [blocks[i]]. *)
Fixpoint layout (filePaths blocks : list string) (currentLine : nat) : list entry :=
  match blocks, filePaths with
  | b :: blocks', p :: filePaths' =>
      let blockLines := length (lines b) in
      Entry p currentLine (currentLine + blockLines - 1)
        :: layout filePaths' blocks' (currentLine + blockLines)
  | _, _ => []
  end.

Definition tocLineCount (blocks : list string) : nat :=
  length (lines tocHeader) + length blocks + 1.

Definition entries (filePaths blocks : list string) : list entry :=
  layout filePaths blocks (tocLineCount blocks + 1).

Definition tocRow (e : entry) : string :=
  "| " +:+ relPath e +:+ " | " +:+ numToString (startLine e) +:+ " | " +:+
  numToString (endLine e) +:+ " |".

Definition tocRows (es : list entry) : string := join nl (tocRow <$> es).

Definition toc (es : list entry) : string := tocHeader +:+ nl +:+ tocRows es.

Definition body (blocks : list string) : string := join nl blocks.

Definition output (es : list entry) (blocks : list string) : string :=
  toc es +:+ nl +:+ nl +:+ body blocks.

End Doc.

(** ** The environment: file system, working directory, [git] *)

#[warnings="-register-all"]
Inductive dirent :=
| FileEnt (name : string)
| DirEnt (name : string) (children : list dirent)
| OtherEnt (name : string).

(** What [fs.existsSync], [fs.statSync] and [fs.readdirSync] tell about an
    absolute path. *)
Inductive stat :=
| Missing
| IsFile
| IsDirectory (children : list dirent)
| IsOther.

Record env := Env {
  resolve : string → string;        (* [path.resolve(cwd, p)] *)
  relative : string → string;       (* [path.relative(cwd, p)] *)
  pathJoin : string → string → string;  (* [path.join(a, b)] *)
  statSync : string → stat;
  readFileSync : string → string;   (* [fs.readFileSync(p, "utf8")] *)
  gitStatus : result string;        (* [execSync("git status --porcelain")] *)
}.

(** What a run does to the outside. *)
Inductive effect :=
| ConsoleLog (msg : string)
| ConsoleWarn (msg : string)
| ConsoleError (msg : string)
| MkdirSync (dir : string)
| WriteFileSync (file data : string).

Inductive outcome :=
| Exit (code : nat)       (* [process.exit(code)] *)
| Uncaught (e : exn).     (* an exception nobody catches *)

(** A computation that has effects and may end the process. *)
Inductive next (A : Type) :=
| Continue (a : A)
| Stop (o : outcome).
Arguments Continue {A} a.
Arguments Stop {A} o.

Definition run (A : Type) : Type := list effect * next A.

#[export] Instance run_ret : MRet run := λ A a, ([], Continue a).
#[export] Instance run_bind : MBind run :=
  λ A B f r,
    match r with
    | (es, Continue a) => let '(es', n) := f a in (es ++ es', n)
    | (es, Stop o) => (es, Stop o)
    end.

Definition emit (e : effect) : run unit := ([e], Continue tt).
Definition exit {A} (code : nat) : run A := ([], Stop (Exit code)).
Definition lift {A} (r : result A) : run A :=
  match r with
  | Ok a => ([], Continue a)
  | Throw e => ([], Stop (Uncaught e))
  end.

(** ** Collecting the paths *)

Module Collect.
Import JS.

Section WithEnv.
Variable E : env.

(** One round of the loop of [listFilesRecursive(dir, base)], for the
    directory entry [e]; a directory entry brings the entries that
    [readdirSync] finds in it. *)
Fixpoint listEntry (base : string) (e : dirent) : list string :=
  let rel name := if truthy base then pathJoin E base name else name in
  match e with
  | DirEnt name children =>
      (fix loop (entries : list dirent) : list string :=
         match entries with
         | [] => []
         | e' :: entries' => listEntry (rel name) e' ++ loop entries'
         end) children
  | FileEnt name => [rel name]
  | OtherEnt _ => []
  end.

(** [listFilesRecursive(dir, base)], on the entries of
    [path.join(dir, base)]. *)
Definition listFilesRecursive (entries : list dirent) (base : string)
  : list string :=
  flat_map (listEntry base) entries.

(** The state of the loop of [collectPaths]. *)
Record cstate := CState {
  seen : gset string;
  collected : list string;
  warnings : list effect;
}.

(** [if (!seen.has(rel)) { seen.add(rel); collected.push(rel); }] *)
Definition addPath (st : cstate) (rel : string) : cstate :=
  if bool_decide (rel ∈ seen st) then st
  else CState ({[rel]} ∪ seen st) (collected st ++ [rel]) (warnings st).

Definition warn (st : cstate) (msg : string) : cstate :=
  CState (seen st) (collected st) (warnings st ++ [ConsoleWarn msg]).

Definition collectArg (st : cstate) (arg : string) : cstate :=
  let resolved := resolve E arg in
  match statSync E resolved with
  | Missing => warn st ("Warning: skipping missing path: " +:+ arg)
  | IsFile => addPath st (relative E resolved)
  | IsDirectory children =>
      let dirRel := relative E resolved in
      let files := listFilesRecursive children "" in
      foldl (λ st f, addPath st (if truthy dirRel then pathJoin E dirRel f else f))
        st files
  | IsOther => warn st ("Warning: skipping non-file non-dir: " +:+ arg)
  end.

Definition collectLoop (pathArgs : list string) : cstate :=
  foldl collectArg (CState ∅ [] []) pathArgs.

Definition collectPaths (pathArgs : list string) : list string :=
  sort (collected (collectLoop pathArgs)).

Definition collectWarnings (pathArgs : list string) : list effect :=
  warnings (collectLoop pathArgs).

End WithEnv.
End Collect.

(** ** Changed files according to [git status --porcelain] *)

Module Git.
Import JS.

Definition charIs (i : nat) (s : string) (c : ascii) : bool :=
  match charAt i s with
  | Some c' => Ascii.eqb c' c
  | None => false
  end.

(** One round of the loop over the lines of the output. *)
Definition gitLine (paths : list string) (line : string) : list string :=
  if negb (truthy (trim line)) then paths
  else
    let status := slice 0 2 line in
    let filePath := trim (sliceFrom 3 line) in
    if charIs 0 status "D" || charIs 1 status "D" then paths
    else
      let filePath :=
        if includes filePath " -> "
        then trim (pop (split " -> " filePath))
        else filePath in
      paths ++ [filePath].

(** The loop of [getGitChangedFiles] on the output [out] of the command. *)
Definition changedFiles (out : string) : list string :=
  foldl gitLine [] (split nl out).

Definition getGitChangedFiles (E : env) : result (list string) :=
  out ← gitStatus E; Ok (changedFiles out).

End Git.

(** ** Command line and [main] *)

Module Main.
Import JS NodePath Glob Doc Collect Git.

Record options := Options {
  outDir : string;
  outName : option string;       (* [None] is [null] *)
  exceptList : list string;
  includeList : list string;
  useGit : bool;
  pathArgs : list string;
}.

(** [v.split(",").map((p) => p.trim()).filter(Boolean)] *)
Definition patternList (v : string) : list string :=
  List.filter truthy (trim <$> split "," v).

Section WithEnv.
Variable E : env.

(** The branches of the loop of [parseArgs] that read [args[i]] alone. *)
Definition flagOrPath (a : string) (o : options) : options :=
  if String.eqb a "--git" then
    Options (outDir o) (outName o) (exceptList o) (includeList o) true (pathArgs o)
  else if negb (startsWith a "--") then
    Options (outDir o) (outName o) (exceptList o) (includeList o) (useGit o)
      (pathArgs o ++ [a])
  else o.

(** The loop of [parseArgs]; an option takes the next argument as its
    value when that argument is not empty. *)
Fixpoint parseLoop (args : list string) (o : options) : options :=
  match args with
  | [] => o
  | a :: rest =>
      match rest with
      | v :: rest' =>
          if String.eqb a "--out" && truthy v then
            parseLoop rest'
              (Options (resolve E v) (outName o) (exceptList o) (includeList o)
                 (useGit o) (pathArgs o))
          else if String.eqb a "--name" && truthy v then
            parseLoop rest'
              (Options (outDir o) (Some v) (exceptList o) (includeList o)
                 (useGit o) (pathArgs o))
          else if String.eqb a "--except" && truthy v then
            parseLoop rest'
              (Options (outDir o) (outName o) (exceptList o ++ patternList v)
                 (includeList o) (useGit o) (pathArgs o))
          else if String.eqb a "--include" && truthy v then
            parseLoop rest'
              (Options (outDir o) (outName o) (exceptList o)
                 (includeList o ++ patternList v) (useGit o) (pathArgs o))
          else parseLoop rest (flagOrPath a o)
      | [] => flagOrPath a o
      end
  end.

Definition parseArgs (argv : list string) : options :=
  parseLoop argv (Options (resolve E "temp/llm-context") None [] [] false []).

Definition usage : string :=
  "Usage: node merge-to-md.js [options] <path1> [path2] ..." +:+ nl +:+
  "  Use --git for git changed files, or provide file/folder paths.".

(** The paths before filtering: from [git], or from the arguments. *)
Definition candidates (o : options) : run (list string) :=
  if useGit o then lift (getGitChangedFiles E)
  else
    match pathArgs o with
    | [] => _ ← emit (ConsoleError usage); exit 1
    | _ => (collectWarnings E (pathArgs o), Continue (collectPaths E (pathArgs o)))
    end.

(** Keep only files (git status can include directories). *)
Definition keepFiles (filePaths : list string) : list string :=
  List.filter
    (λ rel, match statSync E (resolve E rel) with IsFile => true | _ => false end)
    filePaths.

(** [filePaths] when [main] reaches [if (filePaths.length === 0)]. *)
Definition selectFiles (o : options) : run (list string) :=
  filePaths ← candidates o;
  filePaths ← lift (applyFilters (includeList o) (exceptList o) filePaths);
  mret (keepFiles filePaths).

Definition blocksOf (filePaths : list string) : list string :=
  (λ relPath, block relPath (readFileSync E (resolve E relPath))) <$> filePaths.

Definition resolvedName (o : options) : string :=
  match outName o with
  | Some n => n
  | None =>
      if useGit o then "git-changed"
      else
        match pathArgs o with
        | [first] =>
            let n := stripHyphens (slashesToHyphens first) in
            if truthy n then n else "merged"
        | _ => "merged"
        end
  end.

Definition main (argv : list string) : run unit :=
  let o := parseArgs argv in
  filePaths ← selectFiles o;
  match filePaths with
  | [] => _ ← emit (ConsoleLog "No files to merge after filtering."); exit 0
  | _ =>
      let blocks := blocksOf filePaths in
      let es := entries filePaths blocks in
      let outPath := pathJoin E (outDir o) (resolvedName o +:+ ".md") in
      _ ← emit (MkdirSync (outDir o));
      _ ← emit (WriteFileSync outPath (output es blocks));
      emit (ConsoleLog ("Wrote " +:+ numToString (length filePaths) +:+
                        " files to " +:+ relative E outPath))
  end.

End WithEnv.
End Main.

(** ** merge-git-changed-to-md.js: the wrapper that passes [--git] *)

Module Wrapper.
Import JS.

(** The loop of [parseArgs] of the wrapper: the four options that take a
    value are passed through with their value, everything else is
    dropped. *)
Fixpoint passLoop (args passThrough : list string) : list string :=
  match args with
  | [] => passThrough
  | a :: rest =>
      match rest with
      | v :: rest' =>
          if String.eqb a "--out" && truthy v then
            passLoop rest' (passThrough ++ ["--out"; v])
          else if String.eqb a "--name" && truthy v then
            passLoop rest' (passThrough ++ ["--name"; v])
          else if String.eqb a "--except" && truthy v then
            passLoop rest' (passThrough ++ ["--except"; v])
          else if String.eqb a "--include" && truthy v then
            passLoop rest' (passThrough ++ ["--include"; v])
          else passLoop rest passThrough
      | [] => passThrough
      end
  end.

Definition parseArgs (args : list string) : list string :=
  passLoop args ["--git"].

(** The exit status of a run of [merge-to-md.js] as [spawnSync] reports it:
    the code given to [process.exit], 0 when [main] returns, 1 after an
    uncaught exception. *)
Definition status (n : next unit) : nat :=
  match n with
  | Continue _ => 0
  | Stop (Exit code) => code
  | Stop (Uncaught _) => 1
  end.

(** The wrapper: [merge-to-md.js] runs with the arguments of [parseArgs]
    and the standard streams of the wrapper ([stdio: "inherit"]), and the
    wrapper exits with its status ([result.status ?? 1], for a child that
    could be started and was not killed). *)
Definition run (E : env) (args : list string) : list effect * nat :=
  let '(es, n) := Main.main E (parseArgs args) in (es, status n).

End Wrapper.

(** * Vocabulary of the statements *)

Module Spec.
Import JS.

(** [noChar c s]: the code unit [c] does not occur in [s]. *)
Fixpoint noChar (c : ascii) (s : string) : bool :=
  match s with
  | EmptyString => true
  | String c' s' => negb (Ascii.eqb c c') && noChar c s'
  end.

(** Reading a document by line numbers: the text of the lines [first] to
    [last] (counted from 1, both included) of [doc], joined by newlines. *)
Definition extract (first last : nat) (doc : string) : string :=
  join nl (take (last + 1 - first) (drop (first - 1) (Doc.lines doc))).

(** Line number [n] (counted from 1) of [doc]. *)
Definition lineAt (n : nat) (doc : string) : option string :=
  match n with
  | O => None
  | S i => Doc.lines doc !! i
  end.

(** Empty or white space only. *)
Fixpoint whitespaceOnly (s : string) : bool :=
  match s with
  | EmptyString => true
  | String c s' => isWhiteSpace c && whitespaceOnly s'
  end.

(** Every code unit of [s] is matched by the atom [a]. *)
Fixpoint allAtom (a : RegExp.atom) (s : string) : bool :=
  match s with
  | EmptyString => true
  | String c s' => RegExp.atomMatches a c && allAtom a s'
  end.

(** The matcher for patterns without [*], in the words of the
    specification, for the pattern [p]: the path equals [p], or ends with
    ["/" + p], or its final segment equals [p]. *)
Definition exactOrBasename (relPath p : string) : Prop :=
  relPath = p ∨ (∃ pre, relPath = pre +:+ "/" +:+ p) ∨ NodePath.basename relPath = p.

(** The same with the pattern as it is given. *)
Definition exactClaim (relPath pattern : string) : Prop :=
  (whitespaceOnly pattern = true → Glob.matchesGlob relPath pattern = Ok false)
  ∧ (includes pattern "*" = false →
     (Glob.matchesGlob relPath pattern = Ok true ↔ exactOrBasename relPath pattern)).

(** The glob matcher in the words of the specification: every [**] is a
    wildcard for any sequence of code units, every other [*] a wildcard for
    any sequence without [/], every other code unit stands for itself, and
    the whole path has to be matched. *)
Inductive gtoken :=
| GLit (c : ascii)
| GStar
| GGlobstar.

Fixpoint globTokens (p : string) : list gtoken :=
  match p with
  | EmptyString => []
  | String c rest =>
      if Ascii.eqb c "*"%char then
        match rest with
        | String c' rest' =>
            if Ascii.eqb c' "*"%char then GGlobstar :: globTokens rest'
            else GStar :: GLit c' :: globTokens rest'
        | EmptyString => [GStar]
        end
      else GLit c :: globTokens rest
  end.

Fixpoint tokensMatch (ts : list gtoken) (s : string) : bool :=
  match ts with
  | [] => negb (truthy s)
  | GLit c :: ts' =>
      match s with
      | String c' s' => Ascii.eqb c c' && tokensMatch ts' s'
      | EmptyString => false
      end
  | GStar :: ts' =>
      (fix star (s : string) : bool :=
         tokensMatch ts' s ||
         match s with
         | String c s' => negb (Ascii.eqb c "/"%char) && star s'
         | EmptyString => false
         end) s
  | GGlobstar :: ts' =>
      (fix star (s : string) : bool :=
         tokensMatch ts' s ||
         match s with
         | String c s' => star s'
         | EmptyString => false
         end) s
  end.

Definition globSpec (relPath pattern : string) : bool :=
  tokensMatch (globTokens pattern) relPath.

(** The pattern as a list of tokens is well formed: no literal is a star,
    and a single star is not followed by another wildcard. *)
Fixpoint wfTokens (ts : list gtoken) : bool :=
  match ts with
  | [] => true
  | GLit c :: ts' => negb (Ascii.eqb c "*"%char) && wfTokens ts'
  | GStar :: ts' =>
      match ts' with
      | GStar :: _ | GGlobstar :: _ => false
      | _ => wfTokens ts'
      end
  | GGlobstar :: ts' => wfTokens ts'
  end.

(** No literal of the pattern is the code unit [c]. *)
Fixpoint noLit (c : ascii) (ts : list gtoken) : bool :=
  match ts with
  | [] => true
  | GLit c' :: ts' => negb (Ascii.eqb c c') && noLit c ts'
  | _ :: ts' => noLit c ts'
  end.

(** The text of a pattern after each [replace] of [matchesGlob], token by
    token. *)
Definition render (f : gtoken → string) (ts : list gtoken) : string :=
  foldr (λ t acc, f t +:+ acc) "" ts.

Definition escChar (c : ascii) : string :=
  if Glob.isEscaped c then String "\"%char (String c "") else String c "".

Definition afterEscape (t : gtoken) : string :=
  match t with GLit c => escChar c | GStar => "*" | GGlobstar => "**" end.

Definition afterGlobstar (t : gtoken) : string :=
  match t with GLit c => escChar c | GStar => "*" | GGlobstar => "{{GLOBSTAR}}" end.

Definition afterStar (t : gtoken) : string :=
  match t with
  | GLit c => escChar c | GStar => "{{STAR}}" | GGlobstar => "{{GLOBSTAR}}"
  end.

Definition afterDotStar (t : gtoken) : string :=
  match t with GLit c => escChar c | GStar => "{{STAR}}" | GGlobstar => ".*" end.

Definition regexOf (t : gtoken) : string :=
  match t with GLit c => escChar c | GStar => "[^/]*" | GGlobstar => ".*" end.

Definition termOf (t : gtoken) : RegExp.term :=
  match t with
  | GLit c => RegExp.Atom (RegExp.Lit c) RegExp.One
  | GStar => RegExp.Atom RegExp.NotSlash RegExp.Star
  | GGlobstar => RegExp.Atom RegExp.Dot RegExp.Star
  end.

(** No line terminator (LF, CR) in the path. *)
Definition noLineTerminator (s : string) : bool :=
  noChar LF s && noChar "013"%char s.

(** A pattern on which [matchesGlob] does not throw, whatever the path. *)
Definition usable (pattern : string) : Prop :=
  ∀ relPath, ∃ b, Glob.matchesGlob relPath pattern = Ok b.

(** The delete flag in one of the two status columns of a line. *)
Definition deleteFlag (line : string) : bool :=
  Git.charIs 0 line "D" || Git.charIs 1 line "D".

(** A status line: two status code units, one separator, the path. *)
Definition statusLine (x y sp : ascii) (path : string) : string :=
  String x (String y (String sp path)).

(** The paths that one argument of the command line reaches. *)
Definition argPaths (E : env) (arg : string) : list string :=
  let rel := relative E (resolve E arg) in
  match statSync E (resolve E arg) with
  | IsFile => [rel]
  | IsDirectory children =>
      (λ f, if truthy rel then pathJoin E rel f else f)
        <$> Collect.listFilesRecursive E children ""
  | _ => []
  end.

(** What the loop of [collectPaths] keeps true: nothing is collected twice,
    and [seen] holds exactly what is collected. *)
Definition consistent (st : Collect.cstate) : Prop :=
  NoDup (Collect.collected st)
  ∧ ∀ x, x ∈ Collect.seen st ↔ x ∈ Collect.collected st.

(** Effects that create the output directory or write the output file. *)
Definition writes (e : effect) : bool :=
  match e with
  | MkdirSync _ | WriteFileSync _ _ => true
  | _ => false
  end.

(** A working directory [/w] with the folder [src] (files [b.ts], [a.ts],
    [lib/c.ts] and [node_modules/x.js]) and the folder [nm], which holds
    nothing but [node_modules/x.js]. *)
Definition treeEnv : env :=
  let src := [FileEnt "b.ts"; FileEnt "a.ts"; DirEnt "lib" [FileEnt "c.ts"];
              DirEnt "node_modules" [FileEnt "x.js"]] in
  let files := ["/w/src/b.ts"; "/w/src/a.ts"; "/w/src/lib/c.ts";
                "/w/src/node_modules/x.js"; "/w/nm/node_modules/x.js"] in
  Env (λ p, "/w/" +:+ p) (dropStr 3) (λ a b, a +:+ "/" +:+ b)
      (λ p, if String.eqb p "/w/src" then IsDirectory src
            else if String.eqb p "/w/nm"
                 then IsDirectory [DirEnt "node_modules" [FileEnt "x.js"]]
            else if Glob.arrayIncludes files p then IsFile
            else Missing)
      (λ p, "// " +:+ p +:+ nl)
      (Ok "").

(** The text of a block from its opening fence to its closing fence. *)
Definition fencedText (relPath content : string) : string :=
  Doc.fence +:+ Doc.opening relPath +:+ nl +:+ content +:+ nl +:+ Doc.fence.

Global Arguments fencedText : simpl never.

(** A working directory [/w] in which every path is a file with the
    content that [content] gives. *)
Definition filesEnv (content : string → string) : env :=
  Env (λ p, "/w/" +:+ p) (dropStr 3) (λ a b, a +:+ "/" +:+ b)
      (λ _, IsFile) content (Ok "").

Section DocumentClaims.
Variable E : env.
Variable filePaths : list string.

Let blocks := Main.blocksOf E filePaths.
Let es := Doc.entries filePaths blocks.
Let doc := Doc.output es blocks.

(** The size of the index and the place of the first block, as the
    specification states them. *)
Definition firstBlockClaim : Prop :=
  let N := length filePaths in
  take (4 + N + 1) (Doc.lines doc)
    = Doc.lines Doc.tocHeader ++ (Doc.tocRow <$> es) ++ [""]
  ∧ length (Doc.lines Doc.tocHeader) = 4
  ∧ length es = N
  ∧ ∃ e p, es !! 0 = Some e ∧ filePaths !! 0 = Some p
      ∧ Doc.relPath e = p
      ∧ Doc.startLine e = 4 + N + 1 + 1
      ∧ Doc.startLine e = N + 6
      ∧ lineAt (N + 6) doc = Some (Doc.fence +:+ Doc.opening p).

(** The round trip of the line ranges as the specification states it: the
    lines [startLine .. endLine] are the block from fence to fence, and
    [endLine] is the line of the closing fence. *)
Definition lineRangeClaim : Prop :=
  ∀ i e p, es !! i = Some e → filePaths !! i = Some p →
    Doc.relPath e = p
    ∧ extract (Doc.startLine e) (Doc.endLine e) doc
      = fencedText p (readFileSync E (resolve E p))
    ∧ lineAt (Doc.endLine e) doc = Some Doc.fence.

(** The round trip as the script has it: the lines [startLine .. endLine]
    are the block with its final newline, that is, the fenced text and one
    empty line; the closing fence is on line [endLine - 1]. *)
Definition lineRangeFact : Prop :=
  ∀ i e p, es !! i = Some e → filePaths !! i = Some p →
    Doc.relPath e = p
    ∧ extract (Doc.startLine e) (Doc.endLine e) doc
      = Doc.block p (readFileSync E (resolve E p))
    ∧ extract (Doc.startLine e) (Doc.endLine e - 1) doc
      = fencedText p (readFileSync E (resolve E p))
    ∧ lineAt (Doc.endLine e - 1) doc = Some Doc.fence
    ∧ lineAt (Doc.endLine e) doc = Some "".

End DocumentClaims.

(** The regular files in a directory listing, sub-directories included. *)
Fixpoint countEntry (e : dirent) : nat :=
  match e with
  | FileEnt _ => 1
  | DirEnt _ children =>
      (fix count (entries : list dirent) : nat :=
         match entries with
         | [] => 0
         | e' :: entries' => countEntry e' + count entries'
         end) children
  | OtherEnt _ => 0
  end.

Definition countFiles (entries : list dirent) : nat :=
  foldr (λ e n, countEntry e + n) 0 entries.

(** The warning that one argument of the command line causes. *)
Definition warningOf (E : env) (arg : string) : list effect :=
  match statSync E (resolve E arg) with
  | Missing => [ConsoleWarn ("Warning: skipping missing path: " +:+ arg)]
  | IsOther => [ConsoleWarn ("Warning: skipping non-file non-dir: " +:+ arg)]
  | _ => []
  end.

(** Two option records that differ at most in [useGit] and [pathArgs]. *)
Definition sameSettings (o1 o2 : Main.options) : Prop :=
  Main.outDir o1 = Main.outDir o2 ∧ Main.outName o1 = Main.outName o2
  ∧ Main.exceptList o1 = Main.exceptList o2
  ∧ Main.includeList o1 = Main.includeList o2.

(** A pattern as [parseArgs] stores it: not empty, no white space around
    it. *)
Definition cleanPattern (p : string) : Prop := p ≠ "" ∧ trim p = p.

(** The round of the loop of [parseArgs] for an option [a] that takes the
    value [v]; [None] when [a] is no such option or [v] is empty. *)
Definition optionStep (E : env) (a v : string) (o : Main.options)
  : option Main.options :=
  if negb (truthy v) then None
  else if String.eqb a "--out" then
    Some (Main.Options (resolve E v) (Main.outName o) (Main.exceptList o)
            (Main.includeList o) (Main.useGit o) (Main.pathArgs o))
  else if String.eqb a "--name" then
    Some (Main.Options (Main.outDir o) (Some v) (Main.exceptList o)
            (Main.includeList o) (Main.useGit o) (Main.pathArgs o))
  else if String.eqb a "--except" then
    Some (Main.Options (Main.outDir o) (Main.outName o)
            (Main.exceptList o ++ Main.patternList v)
            (Main.includeList o) (Main.useGit o) (Main.pathArgs o))
  else if String.eqb a "--include" then
    Some (Main.Options (Main.outDir o) (Main.outName o) (Main.exceptList o)
            (Main.includeList o ++ Main.patternList v) (Main.useGit o)
            (Main.pathArgs o))
  else None.

(** Is [a] with the value [v] one of the four options that take a value? *)
Definition takesValue (a v : string) : bool :=
  truthy v && (String.eqb a "--out" || String.eqb a "--name"
               || String.eqb a "--except" || String.eqb a "--include").

(** The name of a directory entry. *)
Definition entName (e : dirent) : string :=
  match e with
  | FileEnt name | DirEnt name _ | OtherEnt name => name
  end.

(** The chains of names that lead from a directory entry to the regular
    files in it: the name of a file, or the name of a folder followed by a
    chain of one of its entries; depth first, in the order of the
    listings. *)
Fixpoint chainsOf (e : dirent) : list (list string) :=
  match e with
  | FileEnt name => [[name]]
  | DirEnt name children =>
      (fix go (entries : list dirent) : list (list string) :=
         match entries with
         | [] => []
         | e' :: entries' => (cons name <$> chainsOf e') ++ go entries'
         end) children
  | OtherEnt _ => []
  end.

Definition fileChains (entries : list dirent) : list (list string) :=
  flat_map chainsOf entries.

(** The same chains, told by what is in the listings: [fileAt entries
    chain] when [chain] names a regular file of [entries], or a folder of
    [entries] and then a file below it. *)
Inductive fileAt : list dirent → list string → Prop :=
| fileAt_file entries name :
    FileEnt name ∈ entries → fileAt entries [name]
| fileAt_dir entries name children chain :
    DirEnt name children ∈ entries → fileAt children chain →
    fileAt entries (name :: chain).

(** [base ? path.join(base, name) : name], and the same along a chain of
    names. *)
Definition relOf (E : env) (base name : string) : string :=
  if truthy base then pathJoin E base name else name.

Definition joinChain (E : env) (base : string) (chain : list string) : string :=
  foldl (relOf E) base chain.

(** No two entries of a listing have the same name, in the folder and in
    all folders below it. *)
Fixpoint uniqueNames (e : dirent) : bool :=
  match e with
  | DirEnt _ children =>
      bool_decide (NoDup (entName <$> children))
      && (fix all (entries : list dirent) : bool :=
            match entries with
            | [] => true
            | e' :: entries' => uniqueNames e' && all entries'
            end) children
  | _ => true
  end.

(** The double quote, and a path as [git] prints it when it holds a blank:
    between double quotes. *)
Definition dquote : string := String "034"%char "".

Definition quoted (path : string) : string := dquote +:+ path +:+ dquote.

(** A working directory in which [git status --porcelain] prints [out]. *)
Definition gitEnv (out : string) : env :=
  Env (λ p, "/w/" +:+ p) (dropStr 3) (λ a b, a +:+ "/" +:+ b)
      (λ _, IsFile) (λ _, "") (Ok out).

End Spec.

(** * Properties *)

(** ** Strings and lines *)

Section StringFacts.
Import JS Spec.

Lemma append_nil_r (s : string) : s +:+ "" = s.
Proof. induction s as [|c s IH]; [done|]. by rewrite <- IH at 2. Qed.

Lemma append_cons (c : ascii) (s t : string) :
  String c s +:+ t = String c (s +:+ t).
Proof. done. Qed.

Lemma append_assoc (s t u : string) : (s +:+ t) +:+ u = s +:+ t +:+ u.
Proof.
  induction s as [|c s IH]; [done|].
  by rewrite !append_cons, IH.
Qed.

Lemma length_append (s t : string) :
  String.length (s +:+ t) = String.length s + String.length t.
Proof.
  induction s as [|c s IH]; [done|].
  rewrite append_cons. simpl. by rewrite IH.
Qed.

Lemma noChar_append c s t : noChar c (s +:+ t) = noChar c s && noChar c t.
Proof.
  induction s as [|c' s IH]; [done|].
  rewrite append_cons. simpl. rewrite IH. by rewrite andb_assoc.
Qed.

Lemma prefix_append (sub b : string) : String.prefix sub (sub +:+ b) = true.
Proof.
  induction sub as [|c sub IH]; [by destruct b|].
  rewrite append_cons. cbn [String.prefix]. by destruct (ascii_dec c c).
Qed.

Lemma splitClass_nonempty isSep s : splitClass isSep s ≠ [].
Proof.
  destruct s as [|c s]; simpl; [done|].
  destruct (isSep c); [done|].
  by destruct (splitClass isSep s).
Qed.

Lemma consHead_app c (l1 l2 : list string) :
  l1 ≠ [] → consHead c (l1 ++ l2) = consHead c l1 ++ l2.
Proof. by destruct l1. Qed.

Lemma splitClass_app isSep a c b :
  isSep c = true →
  splitClass isSep (a +:+ String c b) = splitClass isSep a ++ splitClass isSep b.
Proof.
  intros Hc. induction a as [|c' a IH].
  - simpl. unfold String.app. simpl. by rewrite Hc.
  - rewrite append_cons. simpl. destruct (isSep c'); rewrite IH; [done|].
    apply consHead_app, splitClass_nonempty.
Qed.

Lemma splitClass_none isSep s :
  (∀ c, isSep c = true → noChar c s = true) →
  splitClass isSep s = [s].
Proof.
  induction s as [|c s IH]; intros H; [done|].
  simpl. destruct (isSep c) eqn:Hc.
  - specialize (H c Hc). simpl in H. by rewrite Ascii.eqb_refl in H.
  - rewrite IH; [done|]. intros c' Hc'. specialize (H c' Hc'). simpl in H.
    by apply andb_prop in H as [_ ?].
Qed.

Lemma join_splitClass_one c s :
  join (String c "") (splitClass (Ascii.eqb c) s) = s.
Proof.
  unfold join. induction s as [|c' s IH]; [done|].
  simpl. destruct (Ascii.eqb_spec c c') as [->|Hne].
  - pose proof (splitClass_nonempty (Ascii.eqb c') s) as Hn.
    destruct (splitClass (Ascii.eqb c') s) as [|p ps]; [done|].
    simpl in *. by rewrite IH.
  - pose proof (splitClass_nonempty (Ascii.eqb c) s) as Hn.
    destruct (splitClass (Ascii.eqb c) s) as [|p ps]; [done|].
    simpl in *. rewrite <- IH. by destruct ps.
Qed.

End StringFacts.

(** ** The document: blocks, index and line numbers *)

Section DocFacts.
Import JS NodePath Doc Spec.

Lemma lines_app (a b : string) : lines (a +:+ nl +:+ b) = lines a ++ lines b.
Proof. apply splitClass_app, Ascii.eqb_refl. Qed.

Lemma lines_single (s : string) : noChar LF s = true → lines s = [s].
Proof.
  intros H. apply splitClass_none. intros c Hc.
  by apply Ascii.eqb_eq in Hc as <-.
Qed.

Lemma join_lines (s : string) : join nl (lines s) = s.
Proof. apply join_splitClass_one. Qed.

Lemma lines_nonempty (s : string) : lines s ≠ [].
Proof. apply splitClass_nonempty. Qed.

Lemma length_lines_pos (s : string) : 0 < length (lines s).
Proof. pose proof (lines_nonempty s). destruct (lines s); [done|simpl; lia]. Qed.

(** The pieces of a non-empty list joined by newlines are read back line
    by line. *)
Lemma lines_join (l : list string) :
  l ≠ [] → lines (join nl l) = flat_map lines l.
Proof.
  induction l as [|x l IH]; [done|]. intros _.
  destruct l as [|y l].
  - simpl. by rewrite app_nil_r.
  - change (join nl (x :: y :: l)) with (x +:+ nl +:+ join nl (y :: l)).
    rewrite lines_app, IH by done. done.
Qed.

Lemma flat_map_lines_single (l : list string) :
  Forall (λ s, noChar LF s = true) l → flat_map lines l = l.
Proof.
  induction 1 as [|x l Hx _ IH]; [done|].
  simpl. by rewrite (lines_single x Hx), IH.
Qed.

Lemma noChar_uint (d : Decimal.uint) :
  noChar LF (NilEmpty.string_of_uint d) = true.
Proof. induction d; simpl; auto. Qed.

Lemma noChar_numToString (n : nat) : noChar LF (numToString n) = true.
Proof. apply noChar_uint. Qed.

Lemma noChar_tocRow (e : entry) :
  noChar LF (relPath e) = true → noChar LF (tocRow e) = true.
Proof.
  intros H. unfold tocRow.
  rewrite !noChar_append, H, !noChar_numToString. done.
Qed.

Lemma layout_length (filePaths blocks : list string) (cur : nat) :
  length filePaths = length blocks →
  length (layout filePaths blocks cur) = length blocks.
Proof.
  revert filePaths cur. induction blocks as [|b blocks IH];
    intros [|p filePaths] cur Hlen; simplify_eq/=; [done|].
  by rewrite IH.
Qed.

Lemma layout_relPath (filePaths blocks : list string) (cur : nat) :
  length filePaths = length blocks →
  relPath <$> layout filePaths blocks cur = filePaths.
Proof.
  revert filePaths cur. induction blocks as [|b blocks IH];
    intros [|p filePaths] cur Hlen; simplify_eq/=; [done|].
  by rewrite IH.
Qed.

Lemma layout_first (filePaths blocks : list string) (cur : nat) (e : entry) :
  layout filePaths blocks cur !! 0 = Some e → startLine e = cur.
Proof.
  destruct blocks as [|b blocks], filePaths as [|p filePaths]; try done.
  cbn [layout lookup list_lookup]. by intros [= <-].
Qed.

(** Where the loop puts a block: if the lines before the first block are
    [pre] and the loop starts at line [length pre + 1], then entry [i] spans
    exactly the lines of block [i]. *)
Lemma layout_spans (filePaths blocks pre : list string) (cur i : nat) (e : entry) :
  cur = length pre + 1 →
  layout filePaths blocks cur !! i = Some e →
  ∃ b, blocks !! i = Some b ∧ filePaths !! i = Some (relPath e)
    ∧ 1 ≤ startLine e
    ∧ endLine e + 1 - startLine e = length (lines b)
    ∧ take (length (lines b)) (drop (startLine e - 1) (pre ++ flat_map lines blocks))
      = lines b.
Proof.
  revert filePaths pre cur i.
  induction blocks as [|b blocks IH]; intros [|p filePaths] pre cur i Hcur Hi;
    simplify_eq/=.
  pose proof (length_lines_pos b) as Hpos.
  destruct i as [|i]; simplify_eq/=.
  - exists b. repeat split; [lia..|].
    replace (length pre + 1 - 1) with (length pre) by lia.
    rewrite drop_app_length. by rewrite take_app_length.
  - assert (length pre + 1 + length (lines b) = length (pre ++ lines b) + 1)
      as Hcur by (rewrite length_app; lia).
    destruct (IH filePaths (pre ++ lines b) _ i Hcur Hi)
      as (b' & Hb & Hp & H1 & Hlen & Htake).
    exists b'. repeat split; try done.
    by rewrite <- app_assoc in Htake.
Qed.

Lemma lines_tocHeader : lines tocHeader =
  ["# File Index"; ""; "| Path | Start | End |"; "|------|-------|-----|"].
Proof. done. Qed.

(** The lines of the document: the four-line preamble, one row for each
    entry, a blank line, and the lines of the blocks. *)
Lemma lines_output (es : list entry) (blocks : list string) :
  es ≠ [] → blocks ≠ [] →
  Forall (λ e, noChar LF (relPath e) = true) es →
  lines (output es blocks)
  = (lines tocHeader ++ (tocRow <$> es) ++ [""]) ++ flat_map lines blocks.
Proof.
  intros Hes Hblocks Hpaths. unfold output, toc, tocRows, body.
  rewrite <- !append_assoc.
  rewrite (append_assoc _ nl (join nl blocks)).
  rewrite (append_assoc _ nl (nl +:+ join nl blocks)).
  rewrite lines_app.
  rewrite (append_assoc tocHeader nl), lines_app.
  rewrite lines_join by (by destruct es).
  rewrite flat_map_lines_single.
  2:{ apply Forall_fmap. eapply Forall_impl; [done|]. apply noChar_tocRow. }
  change (nl +:+ join nl blocks) with ("" +:+ nl +:+ join nl blocks).
  rewrite lines_app, lines_join by done.
  by rewrite <- !app_assoc.
Qed.

Lemma noChar_lang (relPath : string) : noChar LF (lang relPath) = true.
Proof.
  unfold lang. destruct (EXT_TO_LANG !! extname relPath) as [v|] eqn:Hv; [|done].
  apply elem_of_list_to_map_2 in Hv. simpl.
  repeat (apply elem_of_cons in Hv as [Hv|Hv]; [by simplify_eq|]).
  by apply elem_of_nil in Hv.
Qed.

Lemma noChar_opening (relPath : string) :
  noChar LF relPath = true → noChar LF (opening relPath) = true.
Proof.
  intros H. unfold opening. destruct (truthy _); [|done].
  by rewrite !noChar_append, noChar_lang, H.
Qed.

Lemma lines_fence_nl : lines (fence +:+ nl) = [fence; ""].
Proof. done. Qed.

(** The lines of a block: those of the opening line and the content, the
    closing fence, and the empty piece after the last newline. *)
Lemma lines_block (relPath content : string) :
  lines (block relPath content)
  = lines (fence +:+ opening relPath) ++ lines content ++ [fence; ""].
Proof.
  unfold block.
  rewrite <- (append_assoc fence), lines_app, lines_app.
  by rewrite lines_fence_nl.
Qed.

Lemma lines_fencedText (relPath content : string) :
  lines (fencedText relPath content)
  = lines (fence +:+ opening relPath) ++ lines content ++ [fence].
Proof.
  unfold fencedText.
  by rewrite <- (append_assoc fence), lines_app, lines_app.
Qed.

(** A content that ends with a newline leaves an empty line right before
    the closing fence. *)
Lemma lines_block_newline (relPath content : string) :
  lines (block relPath (content +:+ nl))
  = lines (fence +:+ opening relPath) ++ lines content ++ [""; fence; ""].
Proof.
  rewrite lines_block.
  rewrite <- (append_nil_r (content +:+ nl)), append_assoc, lines_app.
  by rewrite <- app_assoc.
Qed.

(** The last line of a text is empty only when the text is empty or ends
    with a newline. *)
Lemma lines_last (s : string) :
  ∃ ls l, lines s = ls ++ [l] ∧ (l = "" → s = "" ∨ endsWith s nl = true).
Proof.
  induction s as [|c s (ls & l & Hs & Hl)].
  - exists [], "". split; [done|]. by left.
  - unfold lines in *. cbn [splitClass]. rewrite Hs.
    destruct (Ascii.eqb LF c) eqn:Hc.
    + apply Ascii.eqb_eq in Hc as <-.
      exists ("" :: ls), l. split; [done|]. intros Hl'. right.
      destruct (Hl Hl') as [->|He]; [reflexivity|].
      cbn [endsWith]. rewrite He. apply orb_true_r.
    + destruct ls as [|x ls].
      * exists [], (String c l). split; [done|]. done.
      * exists (String c x :: ls), l. split; [done|]. intros Hl'. right.
        destruct (Hl Hl') as [->|He].
        { cbn in Hs. injection Hs as _ Hs. by destruct ls. }
        cbn [endsWith]. rewrite He. apply orb_true_r.
Qed.

Lemma lineAt_pos (n : nat) (doc : string) :
  1 ≤ n → lineAt n doc = lines doc !! (n - 1).
Proof. destruct n; [lia|]. intros _. simpl. by rewrite Nat.sub_0_r. Qed.

Lemma lookup_span (L l : list string) (first j : nat) (x : string) :
  take (length l) (drop first L) = l →
  l !! j = Some x → L !! (first + j) = Some x.
Proof.
  intros Htake Hj. rewrite <- Htake in Hj.
  apply lookup_take_Some in Hj as [Hj _]. by rewrite lookup_drop in Hj.
Qed.

Lemma lookup_snoc_last (l : list string) (x : string) :
  (l ++ [x]) !! (length (l ++ [x]) - 1) = Some x.
Proof.
  rewrite length_app, lookup_app_r by (cbn [length]; lia).
  cbn [length]. by replace (_ - _) with 0 by lia.
Qed.

Section Document.
Variable E : env.
Variable filePaths : list string.
Hypothesis paths_nonempty : filePaths ≠ [].
Hypothesis paths_one_line : Forall (λ p, noChar LF p = true) filePaths.

Let blocks := Main.blocksOf E filePaths.
Let es := entries filePaths blocks.
Let doc := output es blocks.
Let pre := lines tocHeader ++ (tocRow <$> es) ++ [""].

Local Lemma length_blocks : length blocks = length filePaths.
Proof. apply length_fmap. Qed.

Local Lemma length_es : length es = length filePaths.
Proof.
  unfold es, entries. rewrite layout_length; [apply length_blocks|].
  by rewrite length_blocks.
Qed.

Local Lemma es_paths : relPath <$> es = filePaths.
Proof. apply layout_relPath. by rewrite length_blocks. Qed.

Local Lemma length_pre : length pre = 4 + length filePaths + 1.
Proof.
  unfold pre. rewrite !length_app, length_fmap, length_es. simpl. lia.
Qed.

Local Lemma doc_lines : lines doc = pre ++ flat_map lines blocks.
Proof.
  apply lines_output.
  - intros H. apply (f_equal length) in H. rewrite length_es in H.
    by destruct filePaths.
  - intros H. apply (f_equal length) in H. rewrite length_blocks in H.
    by destruct filePaths.
  - pose proof paths_one_line as H. rewrite <- es_paths in H.
    by apply Forall_fmap in H.
Qed.

Local Lemma es_layout : es = layout filePaths blocks (length pre + 1).
Proof.
  unfold es, entries, tocLineCount.
  by rewrite length_pre, length_blocks.
Qed.

Local Lemma entry_span (i : nat) (e : entry) (p : string) :
  es !! i = Some e → filePaths !! i = Some p →
  let b := block p (readFileSync E (resolve E p)) in
  relPath e = p ∧ 1 ≤ startLine e
  ∧ endLine e + 1 - startLine e = length (lines b)
  ∧ take (length (lines b)) (drop (startLine e - 1) (lines doc)) = lines b.
Proof.
  intros He Hp b. rewrite es_layout in He.
  destruct (layout_spans _ _ pre _ _ _ eq_refl He)
    as (b' & Hb & Hp' & H1 & Hlen & Htake).
  rewrite Hp in Hp'. simplify_eq.
  unfold blocks, Main.blocksOf in Hb.
  rewrite list_lookup_fmap, Hp in Hb. injection Hb as <-.
  by rewrite doc_lines.
Qed.

(** C1 (amended). For a non-empty list of files whose paths hold no
    newline: the lines [startLine .. endLine] of the document, joined by
    newlines, are exactly the rendered block of that file, final newline
    included; this is the text from the opening to the closing fence plus
    one empty line.  The closing fence is on line [endLine - 1], and line
    [endLine] is the empty line that follows it. *)
Theorem line_ranges : lineRangeFact E filePaths.
Proof.
  intros i e p He Hp.
  destruct (entry_span i e p He Hp) as (Hrel & H1 & Hlen & Htake).
  fold blocks es doc.
  set (content := readFileSync E (resolve E p)) in *.
  pose proof (lines_block p content) as Hb.
  pose proof (lines_fencedText p content) as Hf.
  assert (lines (block p content) = lines (fencedText p content) ++ [""]) as Hbf.
  { rewrite Hb, Hf. by rewrite <- !app_assoc. }
  assert (length (lines (block p content))
          = length (lines (fencedText p content)) + 1) as Hl.
  { by rewrite Hbf, length_app. }
  pose proof (length_lines_pos (fencedText p content)) as Hpos.
  split; [done|]. split; [|split; [|split]].
  - unfold extract. rewrite Hlen, Htake. apply join_lines.
  - unfold extract.
    replace (endLine e - 1 + 1 - startLine e)
      with (length (lines (fencedText p content))) by lia.
    rewrite <- (join_lines (fencedText p content)) at 2. f_equal.
    replace (length (lines (fencedText p content)))
      with (length (lines (fencedText p content))
            `min` length (lines (block p content))) at 1 by lia.
    rewrite <- take_take, Htake, Hbf. by rewrite take_app_length.
  - rewrite lineAt_pos by lia.
    replace (endLine e - 1 - 1)
      with (startLine e - 1 + (length (lines (fencedText p content)) - 1)) by lia.
    eapply lookup_span; [exact Htake|].
    rewrite Hbf, lookup_app_l by lia.
    rewrite Hf, !app_assoc. apply lookup_snoc_last.
  - rewrite lineAt_pos by lia.
    replace (endLine e - 1)
      with (startLine e - 1 + length (lines (fencedText p content))) by lia.
    eapply lookup_span; [exact Htake|].
    rewrite Hbf, lookup_app_r by lia.
    by rewrite Nat.sub_diag.
Qed.

(** X23. The index and the first block where every row is one line.  For a
    non-empty list of [N] files whose paths hold no newline: the document
    begins with the 4 lines of the preamble, [N] rows and one blank line;
    the first row records the start line [(4 + N + 1) + 1 = N + 6], and
    that line of the document is the opening fence of the first file. *)
Theorem first_block : firstBlockClaim E filePaths.
Proof.
  unfold firstBlockClaim. fold blocks es doc.
  split; [|split; [done|split; [apply length_es|]]].
  { rewrite doc_lines. fold pre. rewrite <- length_pre. apply take_app_length. }
  pose proof paths_nonempty as Hne.
  destruct (filePaths !! 0) as [p|] eqn:Hp.
  2:{ apply lookup_ge_None in Hp. by destruct filePaths; [|simpl in Hp; lia]. }
  destruct (es !! 0) as [e|] eqn:He.
  2:{ apply lookup_ge_None in He. rewrite length_es in He.
      apply lookup_lt_Some in Hp. lia. }
  destruct (entry_span 0 e p He Hp) as (Hrel & H1 & Hlen & Htake).
  assert (startLine e = length pre + 1) as Hstart.
  { rewrite es_layout in He. by apply layout_first in He. }
  rewrite length_pre in Hstart.
  exists e, p. repeat split; [done| lia | lia |].
  rewrite lineAt_pos by lia.
  replace (length filePaths + 6 - 1) with (startLine e - 1 + 0) by lia.
  eapply lookup_span; [exact Htake|].
  rewrite lines_block, lines_single; [done|].
  rewrite noChar_append. apply andb_true_intro. split; [done|].
  apply noChar_opening.
  pose proof paths_one_line as Hall.
  rewrite Forall_lookup in Hall. by apply (Hall 0).
Qed.

End Document.

Lemma line_ranges_witness :
  ["a.ts"; "b.md"] ≠ []
  ∧ Forall (λ p, noChar LF p = true) ["a.ts"; "b.md"]
  ∧ lineRangeFact (filesEnv (λ p, "x of " +:+ p +:+ nl)) ["a.ts"; "b.md"].
Proof.
  assert (["a.ts"; "b.md"] ≠ []) as H1 by done.
  assert (Forall (λ p, noChar LF p = true) ["a.ts"; "b.md"]) as H2
    by (repeat constructor).
  exact (conj H1 (conj H2 (line_ranges _ _ H1 H2))).
Defined.

Lemma first_block_witness :
  ["a.ts"; "b.md"] ≠ []
  ∧ Forall (λ p, noChar LF p = true) ["a.ts"; "b.md"]
  ∧ firstBlockClaim (filesEnv (λ p, "x of " +:+ p +:+ nl)) ["a.ts"; "b.md"].
Proof.
  assert (["a.ts"; "b.md"] ≠ []) as H1 by done.
  assert (Forall (λ p, noChar LF p = true) ["a.ts"; "b.md"]) as H2
    by (repeat constructor).
  exact (conj H1 (conj H2 (first_block _ _ H1 H2))).
Defined.

(** C1, as the specification states it, fails: with the files [a] and [b],
    both with the content [x], the index records the lines 8 to 11 for [a];
    the closing fence of [a] is on line 10 and line 11 is the blank line
    between the blocks. *)
Lemma line_range_claim_fails :
  let E := filesEnv (λ _, "x") in
  let blocks := Main.blocksOf E ["a"; "b"] in
  let es := entries ["a"; "b"] blocks in
  es = [Entry "a" 8 11; Entry "b" 12 15]
  ∧ lineAt 10 (output es blocks) = Some "```"
  ∧ lineAt 11 (output es blocks) = Some ""
  ∧ ¬ lineRangeClaim E ["a"; "b"].
Proof.
  repeat split; [by vm_compute..|].
  intros H.
  destruct (H 0 (Entry "a" 8 11) "a") as (_ & _ & Hfence);
    [by vm_compute..|].
  vm_compute in Hfence. discriminate.
Qed.

(** C2, at the input where the script misses it.  [tocLineCount] counts
    one line for each row of the index, but a row is written with the path
    as it is.  For the single file [a<LF>b] with the content [x] the row
    takes two lines: the index records the lines 7 to 11 for the file,
    line [N + 6 = 7] of the document is the blank line after the index, and
    the opening fence of the file is on line 8. *)
Lemma first_block_claim_fails :
  let E := filesEnv (λ _, "x") in
  let p := "a" +:+ nl +:+ "b" in
  let blocks := Main.blocksOf E [p] in
  let es := entries [p] blocks in
  es = [Entry p 7 11]
  ∧ lineAt 7 (output es blocks) = Some ""
  ∧ lineAt 8 (output es blocks) = Some "```a"
  ∧ ¬ firstBlockClaim E [p].
Proof.
  repeat split; [by vm_compute..|].
  intros (Htake & _). vm_compute in Htake. discriminate.
Qed.

End DocFacts.

(** ** The glob matcher *)

Section GlobFacts.
Import JS NodePath Glob Spec.

Lemma whitespaceOnly_trimStart (s : string) :
  whitespaceOnly (trimStart s) = whitespaceOnly s.
Proof.
  induction s as [|c s IH]; [done|].
  cbn [trimStart whitespaceOnly]. destruct (isWhiteSpace c) eqn:Hc; [done|].
  cbn [whitespaceOnly]. by rewrite Hc.
Qed.

Lemma trimEnd_empty (s : string) :
  truthy (trimEnd s) = negb (whitespaceOnly s).
Proof.
  induction s as [|c s IH]; [done|].
  cbn [trimEnd whitespaceOnly].
  destruct (trimEnd s) eqn:Ht, (whitespaceOnly s), (isWhiteSpace c); done.
Qed.

Lemma truthy_trim (s : string) : truthy (trim s) = negb (whitespaceOnly s).
Proof. unfold trim. by rewrite trimEnd_empty, whitespaceOnly_trimStart. Qed.

Lemma prefix_one (c c' : ascii) (s : string) :
  String.prefix (String c "") (String c' s) = Ascii.eqb c c'.
Proof.
  cbn [String.prefix]. destruct (ascii_dec c c') as [->|Hne].
  - rewrite Ascii.eqb_refl. by destruct s.
  - symmetry. by apply Ascii.eqb_neq.
Qed.

Lemma includes_one (c : ascii) (s : string) :
  includes s (String c "") = negb (noChar c s).
Proof.
  induction s as [|c' s IH]; [done|].
  cbn [includes noChar]. rewrite prefix_one, IH.
  by destruct (Ascii.eqb c c'), (noChar c s).
Qed.

Lemma noChar_trimStart (c : ascii) (s : string) :
  isWhiteSpace c = false → noChar c (trimStart s) = noChar c s.
Proof.
  intros Hc. induction s as [|c' s IH]; [done|].
  cbn [trimStart noChar]. destruct (isWhiteSpace c') eqn:Hc'; [|done].
  rewrite IH. destruct (Ascii.eqb_spec c c') as [->|]; [congruence|done].
Qed.

Lemma noChar_trimEnd (c : ascii) (s : string) :
  isWhiteSpace c = false → noChar c (trimEnd s) = noChar c s.
Proof.
  intros Hc. induction s as [|c' s IH]; [done|].
  cbn [trimEnd noChar]. rewrite <- IH.
  destruct (trimEnd s) eqn:Ht; [|done].
  destruct (isWhiteSpace c') eqn:Hc'; cbn [noChar]; [|done].
  destruct (Ascii.eqb_spec c c') as [->|]; [congruence|done].
Qed.

Lemma includes_star_trim (s : string) :
  includes (trim s) "*" = includes s "*".
Proof.
  rewrite !includes_one. unfold trim.
  by rewrite noChar_trimEnd, noChar_trimStart.
Qed.

Lemma endsWith_spec (s suf : string) :
  endsWith s suf = true ↔ ∃ pre, s = pre +:+ suf.
Proof.
  split.
  - induction s as [|c s IH]; cbn [endsWith]; intros H.
    + apply orb_prop in H as [H|H]; [|done].
      apply String.eqb_eq in H as <-. by exists "".
    + apply orb_prop in H as [H|H].
      * apply String.eqb_eq in H as <-. by exists "".
      * destruct (IH H) as [pre ->]. by exists (String c pre).
  - intros [pre ->]. induction pre as [|c pre IH].
    + change ("" +:+ suf) with suf. destruct suf; cbn [endsWith];
        by rewrite String.eqb_refl.
    + rewrite append_cons. cbn [endsWith]. rewrite IH. apply orb_true_r.
Qed.

(** What [matchesGlob] returns for a pattern without [*]. *)
Lemma matchesGlob_exact (relPath pattern : string) :
  whitespaceOnly pattern = false → includes pattern "*" = false →
  matchesGlob relPath pattern
  = Ok (String.eqb relPath (trim pattern)
        || endsWith relPath ("/" +:+ trim pattern)
        || String.eqb (basename relPath) (trim pattern)).
Proof.
  intros Hw Hs. unfold matchesGlob.
  by rewrite truthy_trim, Hw, includes_star_trim, Hs.
Qed.

(** C5 (amended). An empty or whitespace-only pattern never matches.  For
    every other pattern without [*], [matchesGlob] compares with the pattern
    after trimming: it returns true iff the path equals the trimmed pattern,
    or ends with ["/"] and the trimmed pattern, or its final segment equals
    the trimmed pattern. *)
Theorem matches_exact (relPath pattern : string) :
  (whitespaceOnly pattern = true → matchesGlob relPath pattern = Ok false)
  ∧ (whitespaceOnly pattern = false → includes pattern "*" = false →
     (∃ b, matchesGlob relPath pattern = Ok b)
     ∧ (matchesGlob relPath pattern = Ok true
        ↔ exactOrBasename relPath (trim pattern))).
Proof.
  split.
  - intros Hw. unfold matchesGlob. by rewrite truthy_trim, Hw.
  - intros Hw Hs. rewrite (matchesGlob_exact _ _ Hw Hs).
    split; [by eexists|]. unfold exactOrBasename.
    rewrite <- endsWith_spec, <- !String.eqb_eq.
    split.
    + intros [= H]. apply orb_prop in H as [H|H]; [|by auto].
      apply orb_prop in H as [H|H]; auto.
    + intros [H|[H|H]]; rewrite H; f_equal.
      * by rewrite orb_true_r.
      * by rewrite orb_true_r.
Qed.

Lemma matches_exact_witness :
  whitespaceOnly "   " = true
  ∧ whitespaceOnly " README.md " = false
  ∧ includes " README.md " "*" = false
  ∧ matchesGlob "docs/README.md" "   " = Ok false
  ∧ (matchesGlob "docs/README.md" " README.md " = Ok true
     ↔ exactOrBasename "docs/README.md" "README.md").
Proof.
  assert (whitespaceOnly "   " = true) as H1 by reflexivity.
  assert (whitespaceOnly " README.md " = false) as H2 by reflexivity.
  assert (includes " README.md " "*" = false) as H3 by reflexivity.
  exact (conj H1 (conj H2 (conj H3 (conj
    (proj1 (matches_exact "docs/README.md" "   ") H1)
    (proj2 (proj2 (matches_exact "docs/README.md" " README.md ") H2 H3)))))).
Defined.

(** C5, as the specification states it, fails for a pattern with white
    space around it: [" a.ts"] is trimmed and then matches the path ["a.ts"],
    which is none of the three ways to match the pattern as given. *)
Lemma exact_claim_fails :
  matchesGlob "a.ts" " a.ts" = Ok true
  ∧ ¬ exactOrBasename "a.ts" " a.ts"
  ∧ ¬ exactClaim "a.ts" " a.ts".
Proof.
  assert (¬ exactOrBasename "a.ts" " a.ts") as Hno.
  { intros [H|[[pre H]|H]]; [done| |done].
    apply (f_equal String.length) in H. rewrite !length_append in H.
    cbn in H. lia. }
  repeat split; [done|].
  intros [_ H]. apply Hno, H; done.
Qed.

(** *** Matching with a regular expression *)

Lemma Ok_inj {A} (a b : A) : Ok a = Ok b → a = b.
Proof. congruence. Qed.

Lemma matchHere_star_unfold a r b s :
  RegExp.matchHere (RegExp.Atom a RegExp.Star :: r) b s
  = match s with
    | String c s' =>
        (RegExp.atomMatches a c
         && RegExp.matchHere (RegExp.Atom a RegExp.Star :: r) false s')
        || RegExp.matchHere r b s
    | EmptyString => RegExp.matchHere r b s
    end.
Proof. by destruct s. Qed.

(** A starred atom takes a prefix of code units that the atom matches. *)
Lemma matchHere_star a r b s :
  RegExp.matchHere (RegExp.Atom a RegExp.Star :: r) b s = true
  ↔ ∃ s1 s2, s = s1 +:+ s2 ∧ allAtom a s1 = true
      ∧ RegExp.matchHere r (b && negb (truthy s1)) s2 = true.
Proof.
  split.
  - revert b. induction s as [|c s IH]; intros b; rewrite matchHere_star_unfold.
    + intros H. exists "", "". by rewrite andb_true_r.
    + intros H. apply orb_prop in H as [H|H].
      * apply andb_prop in H as [Hc H].
        destruct (IH _ H) as (s1 & s2 & -> & Hall & Hm).
        exists (String c s1), s2. cbn [allAtom truthy negb].
        rewrite Hc, Hall, andb_false_r. done.
      * exists "", (String c s). by rewrite andb_true_r.
  - intros (s1 & s2 & -> & Hall & Hm). revert b Hm.
    induction s1 as [|c s1 IH]; intros b Hm.
    + rewrite andb_true_r in Hm. change ("" +:+ s2) with s2.
      rewrite matchHere_star_unfold. destruct s2; [done|].
      by rewrite Hm, orb_true_r.
    + cbn [allAtom] in Hall. apply andb_prop in Hall as [Hc Hall].
      rewrite append_cons, matchHere_star_unfold, Hc.
      rewrite (IH Hall false); [done|].
      by rewrite andb_false_r in Hm.
Qed.

Lemma matchHere_lit c r b s :
  RegExp.matchHere (RegExp.Atom (RegExp.Lit c) RegExp.One :: r) b s = true
  ↔ ∃ s', s = String c s' ∧ RegExp.matchHere r false s' = true.
Proof.
  destruct s as [|c' s]; cbn [RegExp.matchHere RegExp.eat RegExp.atomMatches].
  - split; [done|]. by intros (? & ? & _).
  - split.
    + intros H. apply andb_prop in H as [Hc H].
      apply Ascii.eqb_eq in Hc as ->. by exists s.
    + intros (s' & Heq & H). injection Heq as <- <-.
      rewrite Ascii.eqb_refl. exact H.
Qed.

Lemma matchHere_end b s :
  RegExp.matchHere [RegExp.AssertEnd] b s = true ↔ s = "".
Proof. destruct s; cbn; split; done. Qed.

(** A pattern that begins with [^] matches at the beginning of the input
    or not at all. *)
Lemma searchFrom_anchored r s :
  RegExp.searchFrom (RegExp.AssertStart :: r) false s = false.
Proof. induction s as [|c s IH]; [done|]. cbn in *. by rewrite IH. Qed.

Lemma test_anchored r s :
  RegExp.test (RegExp.AssertStart :: r) s = RegExp.matchHere r true s.
Proof.
  unfold RegExp.test. destruct s as [|c s]; cbn [RegExp.searchFrom].
  - by rewrite orb_false_r.
  - rewrite searchFrom_anchored, orb_false_r. done.
Qed.

Lemma allAtom_NotSlash s : allAtom RegExp.NotSlash s = noChar "/" s.
Proof.
  induction s as [|c s IH]; [done|].
  cbn [allAtom noChar RegExp.atomMatches]. by rewrite IH, Ascii.eqb_sym.
Qed.

(** The regular expression of the pattern [*.ts] is [^[^/]*\.ts$]. *)
Lemma matchesGlob_star_ts (relPath : string) :
  matchesGlob relPath "*.ts"
  = Ok (RegExp.test
          [RegExp.AssertStart; RegExp.Atom RegExp.NotSlash RegExp.Star;
           RegExp.Atom (RegExp.Lit ".") RegExp.One;
           RegExp.Atom (RegExp.Lit "t") RegExp.One;
           RegExp.Atom (RegExp.Lit "s") RegExp.One; RegExp.AssertEnd]
          relPath).
Proof. done. Qed.

Lemma matchesGlob_star_ts_iff (relPath : string) :
  matchesGlob relPath "*.ts" = Ok true
  ↔ ∃ stem, relPath = stem +:+ ".ts" ∧ noChar "/" stem = true.
Proof.
  rewrite matchesGlob_star_ts, test_anchored. split.
  - intros H. apply Ok_inj in H.
    apply matchHere_star in H as (s1 & s2 & -> & Hall & H).
    apply matchHere_lit in H as (s3 & -> & H).
    apply matchHere_lit in H as (s4 & -> & H).
    apply matchHere_lit in H as (s5 & -> & H).
    apply matchHere_end in H as ->.
    exists s1. by rewrite <- allAtom_NotSlash.
  - intros (stem & -> & Hstem). f_equal.
    apply matchHere_star. exists stem, ".ts".
    rewrite allAtom_NotSlash. split; [done|]. split; [done|].
    apply matchHere_lit. eexists. split; [done|].
    apply matchHere_lit. eexists. split; [done|].
    apply matchHere_lit. eexists. split; [done|].
    by apply matchHere_end.
Qed.

(** C3, at the input where the script leaves its own usage notes.
    [matchesGlob("a/b.ts", "*.ts")] returns false: the regular expression
    of [*.ts] is anchored at both ends and its [*] takes no [/], so [*.ts]
    matches exactly the paths without [/] that end in [.ts], such as
    [b.ts].  A pattern without [*] does reach into folders: [b.ts] matches
    [a/b.ts] by its base name.  The documented call [--except
    "*.test.ts,*.spec.ts" apps/web/src] therefore excludes nothing below
    the folder. *)
Theorem star_ts_rejects_nested :
  matchesGlob "a/b.ts" "*.ts" = Ok false
  ∧ matchesGlob "b.ts" "*.ts" = Ok true
  ∧ matchesGlob "a/b.ts" "**/*.ts" = Ok true
  ∧ (∀ relPath, matchesGlob relPath "*.ts" = Ok true
       ↔ ∃ stem, relPath = stem +:+ ".ts" ∧ noChar "/" stem = true)
  ∧ matchesGlob "a/b.ts" "b.ts" = Ok true
  ∧ Main.patternList "*.test.ts,*.spec.ts" = ["*.test.ts"; "*.spec.ts"]
  ∧ applyFilters [] ["*.test.ts"; "*.spec.ts"]
      ["apps/web/src/a.test.ts"; "apps/web/src/b.spec.ts"; "apps/web/src/c.ts"]
    = Ok ["apps/web/src/a.test.ts"; "apps/web/src/b.spec.ts"; "apps/web/src/c.ts"].
Proof.
  split; [done|]. split; [done|]. split; [done|].
  split; [apply matchesGlob_star_ts_iff|]. split; [done|]. split; [done|].
  by vm_compute.
Qed.

(** C4, at the inputs where the script leaves the specification: [?] is
    not in the class of escaped characters, so it reaches [new RegExp] as a
    quantifier.  The pattern [a?*] becomes [^a?[^/]*$], which matches [b],
    and the pattern [?*] becomes [^?[^/]*$], which is a syntax error; with
    [?] matched literally, [a?*] does not match [b] and [?*] matches [?x].
    (Besides, the [.*] of [**] takes no line terminator.) *)
Theorem question_mark_not_escaped :
  reStr "a?*" = "a?[^/]*"
  ∧ matchesGlob "b" "a?*" = Ok true
  ∧ globSpec "b" "a?*" = false
  ∧ matchesGlob "a?x" "a?*" = Ok true
  ∧ globSpec "a?x" "a?*" = true
  ∧ reStr "?*" = "?[^/]*"
  ∧ matchesGlob "?x" "?*" = Throw SyntaxError
  ∧ globSpec "?x" "?*" = true
  ∧ matchesGlob ("a" +:+ nl +:+ "b") "**" = Ok false
  ∧ globSpec ("a" +:+ nl +:+ "b") "**" = true.
Proof. repeat split; done. Qed.

(** *** From the pattern to the regular expression *)

(** Induction along [globTokens]. *)
Lemma pattern_ind (P : string → Prop) :
  P "" →
  (∀ c rest, c ≠ "*"%char → P rest → P (String c rest)) →
  P "*" →
  (∀ c rest, c ≠ "*"%char → P rest → P (String "*" (String c rest))) →
  (∀ rest, P rest → P (String "*" (String "*" rest))) →
  ∀ p, P p.
Proof.
  intros H0 Hlit Hstar Hstarlit Hglob p.
  assert (∀ n p, String.length p < n → P p) as H;
    [|apply (H (S (String.length p))); lia].
  clear p. induction n as [|n IH]; intros p Hn; [lia|].
  destruct p as [|c rest]; [done|]. cbn [String.length] in Hn.
  destruct (ascii_dec c "*") as [->|Hc]; [|apply Hlit; [done|apply IH; lia]].
  destruct rest as [|c' rest']; [done|]. cbn [String.length] in Hn.
  destruct (ascii_dec c' "*") as [->|Hc'].
  - apply Hglob, IH. lia.
  - apply Hstarlit; [done|]. apply IH. lia.
Qed.

Lemma globTokens_lit c rest :
  c ≠ "*"%char → globTokens (String c rest) = GLit c :: globTokens rest.
Proof. intros Hc. cbn [globTokens]. by apply Ascii.eqb_neq in Hc as ->. Qed.

Lemma globTokens_starlit c rest :
  c ≠ "*"%char →
  globTokens (String "*" (String c rest)) = GStar :: GLit c :: globTokens rest.
Proof. intros Hc. cbn [globTokens]. by apply Ascii.eqb_neq in Hc as ->. Qed.

Lemma wfTokens_globTokens p : wfTokens (globTokens p) = true.
Proof.
  induction p as [|c rest Hc IH| |c rest Hc IH|rest IH] using pattern_ind;
    try done.
  - rewrite globTokens_lit by done. cbn [wfTokens].
    by apply Ascii.eqb_neq in Hc as ->.
  - rewrite globTokens_starlit by done. cbn [wfTokens].
    by apply Ascii.eqb_neq in Hc as ->.
Qed.

Lemma noLit_globTokens c p : noChar c p = true → noLit c (globTokens p) = true.
Proof.
  induction p as [|c' rest Hc IH| |c' rest Hc IH|rest IH] using pattern_ind;
    try done; cbn [noChar]; intros H.
  - rewrite globTokens_lit by done. cbn [noLit].
    apply andb_prop in H as [-> H]. by rewrite IH.
  - rewrite globTokens_starlit by done. cbn [noLit].
    apply andb_prop in H as [_ H]. apply andb_prop in H as [-> H].
    by rewrite IH.
  - cbn [globTokens Ascii.eqb eqb]. cbn [noLit]. apply IH.
    apply andb_prop in H as [_ H]. by apply andb_prop in H as [_ H].
Qed.

Lemma isEscaped_star : isEscaped "*" = false.
Proof. done. Qed.

Lemma escapeClass_lit c rest :
  escapeClass isEscaped (String c rest)
  = (if isEscaped c then String "\" (String c "") else String c "")
    +:+ escapeClass isEscaped rest.
Proof. cbn [escapeClass]. by destruct (isEscaped c). Qed.

(** The first [replace]: every literal is escaped, the stars stay. *)
Lemma escapeClass_render p :
  escapeClass isEscaped p = render afterEscape (globTokens p).
Proof.
  induction p as [|c rest Hc IH| |c rest Hc IH|rest IH] using pattern_ind;
    try done.
  - rewrite globTokens_lit, escapeClass_lit, IH by done. done.
  - rewrite globTokens_starlit by done.
    change (escapeClass isEscaped (String "*" (String c rest)))
      with (String "*" (escapeClass isEscaped (String c rest))).
    rewrite escapeClass_lit, IH. done.
  - change (escapeClass isEscaped (String "*" (String "*" rest)))
      with (String "*" (String "*" (escapeClass isEscaped rest))).
    by rewrite IH.
Qed.

(** *** The four replacements of wildcards *)

Lemma prefix_ne (n c : ascii) (N rest : string) :
  n ≠ c → String.prefix (String n N) (String c rest) = false.
Proof. intros H. cbn [String.prefix]. by destruct (ascii_dec n c). Qed.

Lemma prefix_eq (c : ascii) (N rest : string) :
  String.prefix (String c N) (String c rest) = String.prefix N rest.
Proof. cbn [String.prefix]. by destruct (ascii_dec c c). Qed.

Lemma replaceGo_skip (N R s1 rest : string) :
  replaceGo N R (String.length s1) (s1 +:+ rest) = replaceGo N R 0 rest.
Proof. induction s1 as [|c s1 IH]; [done|]. by rewrite append_cons. Qed.

Lemma replaceGo_hit (N R rest : string) :
  N ≠ "" → replaceGo N R 0 (N +:+ rest) = R +:+ replaceGo N R 0 rest.
Proof.
  intros HN. pose proof (prefix_append N rest) as Hp.
  destruct N as [|n N]; [done|].
  rewrite append_cons in *. cbn [replaceGo]. rewrite Hp.
  replace (String.length (String n N) - 1) with (String.length N)
    by (cbn [String.length]; lia).
  by rewrite replaceGo_skip.
Qed.

Lemma replaceGo_miss (N R : string) (c : ascii) (rest : string) :
  String.prefix N (String c rest) = false →
  replaceGo N R 0 (String c rest) = String c (replaceGo N R 0 rest).
Proof. intros H. cbn [replaceGo]. by rewrite H. Qed.

Lemma render_cons f t ts : render f (t :: ts) = f t +:+ render f ts.
Proof. done. Qed.

Ltac norm_app :=
  rewrite ?append_cons; repeat change (EmptyString +:+ ?x) with x.

(** An escaped literal passes a replacement whose needle begins with the
    code unit [n] when the literal is not [n] itself, or when what follows
    does not complete the needle. *)
Lemma escChar_pass (n : ascii) (N R : string) (c : ascii) (rest : string) :
  n ≠ "\"%char →
  (c = n → isEscaped c = true ∧ String.prefix N rest = false) →
  replaceGo (String n N) R 0 (escChar c +:+ rest)
  = escChar c +:+ replaceGo (String n N) R 0 rest.
Proof.
  intros Hn Hc. unfold escChar.
  assert (String.prefix (String n N) (String c rest) = false) as Hmiss.
  { destruct (ascii_dec n c) as [->|Hne]; [|by apply prefix_ne].
    rewrite prefix_eq. by apply Hc. }
  destruct (isEscaped c) eqn:He; norm_app.
  - rewrite replaceGo_miss by (by apply prefix_ne).
    by rewrite replaceGo_miss.
  - by rewrite replaceGo_miss.
Qed.

(** The second [replace]: [**] becomes the first placeholder. *)
Lemma replace_globstar ts :
  wfTokens ts = true →
  replaceAll "**" "{{GLOBSTAR}}" (render afterEscape ts) = render afterGlobstar ts.
Proof.
  unfold replaceAll. induction ts as [|t ts IH]; [done|].
  intros Hwf. rewrite !render_cons. destruct t as [c| |]; cbn [wfTokens] in Hwf.
  - apply andb_prop in Hwf as [Hc Hwf].
    apply negb_true_iff, Ascii.eqb_neq in Hc.
    cbn [afterEscape afterGlobstar].
    rewrite escChar_pass, IH; [done..|].
    intros ->. done.
  - cbn [afterEscape afterGlobstar]. norm_app.
    rewrite replaceGo_miss, IH; [done| |].
    + by destruct ts as [|[] ts].
    + rewrite prefix_eq. destruct ts as [|[c| |] ts]; [done| |done..].
      cbn [wfTokens] in Hwf. apply andb_prop in Hwf as [Hc _].
      apply negb_true_iff, Ascii.eqb_neq in Hc.
      rewrite render_cons. cbn [afterEscape]. unfold escChar.
      destruct (isEscaped c); norm_app; apply prefix_ne; [done|congruence].
  - cbn [afterEscape afterGlobstar].
    by rewrite replaceGo_hit, IH.
Qed.

(** The third [replace]: the stars that are left become the second
    placeholder. *)
Lemma replace_star ts :
  wfTokens ts = true →
  replaceAll "*" "{{STAR}}" (render afterGlobstar ts) = render afterStar ts.
Proof.
  unfold replaceAll. induction ts as [|t ts IH]; [done|].
  intros Hwf. rewrite !render_cons.
  assert (wfTokens ts = true) as Hwf'.
  { destruct t; cbn [wfTokens] in Hwf.
    - by apply andb_prop in Hwf as [_ ?].
    - by destruct ts as [|[] ts].
    - done. }
  destruct t as [c| |]; cbn [wfTokens] in Hwf; cbn [afterGlobstar afterStar].
  - apply andb_prop in Hwf as [Hc _].
    apply negb_true_iff, Ascii.eqb_neq in Hc.
    rewrite escChar_pass, IH; [done..|]. intros ->. done.
  - by rewrite replaceGo_hit, IH.
  - norm_app. rewrite !replaceGo_miss by done. by rewrite IH.
Qed.

Lemma isEscaped_brace c : "{"%char = c → isEscaped c = true.
Proof. by intros <-. Qed.

(** What follows a literal [{] never completes a placeholder. *)
Lemma no_globstar_ahead ts :
  String.prefix "{GLOBSTAR}}" (render afterStar ts) = false.
Proof.
  destruct ts as [|[c| |] ts]; [done| |done..].
  rewrite render_cons. cbn [afterStar]. unfold escChar.
  destruct (isEscaped c) eqn:He; norm_app; apply prefix_ne; [done|].
  intros Hc. apply isEscaped_brace in Hc. congruence.
Qed.

Lemma no_star_ahead ts :
  String.prefix "{STAR}}" (render afterDotStar ts) = false.
Proof.
  destruct ts as [|[c| |] ts]; [done| |done..].
  rewrite render_cons. cbn [afterDotStar]. unfold escChar.
  destruct (isEscaped c) eqn:He; norm_app; apply prefix_ne; [done|].
  intros Hc. apply isEscaped_brace in Hc. congruence.
Qed.

(** The fourth [replace]: the first placeholder becomes [.*]. *)
Lemma replace_globstar_placeholder ts :
  replaceAll "{{GLOBSTAR}}" ".*" (render afterStar ts) = render afterDotStar ts.
Proof.
  unfold replaceAll. induction ts as [|t ts IH]; [done|].
  rewrite !render_cons. destruct t as [c| |]; cbn [afterStar afterDotStar].
  - rewrite escChar_pass, IH; [done..|].
    intros ->. split; [done|apply no_globstar_ahead].
  - norm_app. rewrite !replaceGo_miss by done. by rewrite IH.
  - by rewrite replaceGo_hit, IH.
Qed.

(** The fifth [replace]: the second placeholder becomes [[^/]*]. *)
Lemma replace_star_placeholder ts :
  replaceAll "{{STAR}}" "[^/]*" (render afterDotStar ts) = render regexOf ts.
Proof.
  unfold replaceAll. induction ts as [|t ts IH]; [done|].
  rewrite !render_cons. destruct t as [c| |]; cbn [afterDotStar regexOf].
  - rewrite escChar_pass, IH; [done..|].
    intros ->. split; [done|apply no_star_ahead].
  - by rewrite replaceGo_hit, IH.
  - norm_app. rewrite !replaceGo_miss by done. by rewrite IH.
Qed.

(** The source of the regular expression, token by token. *)
Lemma reStr_render p : reStr p = render regexOf (globTokens p).
Proof.
  unfold reStr, escaped.
  rewrite escapeClass_render.
  rewrite replace_globstar by apply wfTokens_globTokens.
  rewrite replace_star by apply wfTokens_globTokens.
  by rewrite replace_globstar_placeholder, replace_star_placeholder.
Qed.

(** *** Parsing the regular expression *)

Lemma parseFrom_app st s1 s2 :
  RegExp.parseFrom st (s1 +:+ s2)
  = st' ← RegExp.parseFrom st s1; RegExp.parseFrom st' s2.
Proof.
  revert st. induction s1 as [|c s1 IH]; intros st; [done|].
  rewrite append_cons. cbn [RegExp.parseFrom].
  destruct (RegExp.step st c) as [st'|e]; [|done]. cbn. apply IH.
Qed.

Lemma isEscaped_syntax c :
  isEscaped c = true → RegExp.isSyntaxCharacter c = true.
Proof. destruct c as [[] [] [] [] [] [] [] []]; done. Qed.

Lemma step_plain acc c :
  isEscaped c = false → c ≠ "*"%char → c ≠ "?"%char →
  RegExp.step (RegExp.PState acc RegExp.Normal) c
  = Ok (RegExp.PState (RegExp.Atom (RegExp.Lit c) RegExp.One :: acc) RegExp.Normal).
Proof. destruct c as [[] [] [] [] [] [] [] []]; done. Qed.

Lemma parse_token acc t :
  noLit "?" [t] = true → wfTokens [t] = true →
  RegExp.parseFrom (RegExp.PState acc RegExp.Normal) (regexOf t)
  = Ok (RegExp.PState (termOf t :: acc) RegExp.Normal).
Proof.
  destruct t as [c| |]; [|done..].
  cbn [noLit wfTokens regexOf termOf]. rewrite !andb_true_r.
  intros Hq%negb_true_iff%Ascii.eqb_neq Hs%negb_true_iff%Ascii.eqb_neq.
  unfold escChar. destruct (isEscaped c) eqn:He.
  - cbn [RegExp.parseFrom RegExp.step RegExp.pmode]. cbn.
    by rewrite (isEscaped_syntax c He).
  - cbn [RegExp.parseFrom]. rewrite step_plain by done. done.
Qed.

Lemma wfTokens_cons t ts :
  wfTokens (t :: ts) = true → wfTokens [t] = true ∧ wfTokens ts = true.
Proof.
  destruct t as [c| |]; cbn [wfTokens].
  - intros [-> ->]%andb_prop. done.
  - by destruct ts as [|[] ts].
  - done.
Qed.

Lemma noLit_cons c t ts :
  noLit c (t :: ts) = true → noLit c [t] = true ∧ noLit c ts = true.
Proof.
  destruct t as [c'| |]; cbn [noLit]; [|done..].
  intros [-> ->]%andb_prop. done.
Qed.

Lemma parse_render ts acc tail :
  noLit "?" ts = true → wfTokens ts = true →
  RegExp.parseFrom (RegExp.PState acc RegExp.Normal) (render regexOf ts +:+ tail)
  = RegExp.parseFrom
      (RegExp.PState (reverse (termOf <$> ts) ++ acc) RegExp.Normal) tail.
Proof.
  revert acc. induction ts as [|t ts IH]; intros acc Hq Hwf; [done|].
  apply noLit_cons in Hq as [Hq1 Hq]. apply wfTokens_cons in Hwf as [Hwf1 Hwf].
  rewrite render_cons, append_assoc, parseFrom_app, parse_token by done.
  cbn [mbind result_bind]. rewrite IH by done.
  by rewrite fmap_cons, reverse_cons, <- app_assoc.
Qed.

(** [new RegExp] on the source that [matchesGlob] builds, for a pattern
    without [?]. *)
Lemma new_render ts :
  noLit "?" ts = true → wfTokens ts = true →
  RegExp.new ("^" +:+ render regexOf ts +:+ "$")
  = Ok (RegExp.AssertStart :: (termOf <$> ts) ++ [RegExp.AssertEnd]).
Proof.
  intros Hq Hwf. unfold RegExp.new. norm_app.
  change (RegExp.parseFrom (RegExp.PState [] RegExp.Normal)
            (String "^" (render regexOf ts +:+ "$")))
    with (RegExp.parseFrom (RegExp.PState [RegExp.AssertStart] RegExp.Normal)
            (render regexOf ts +:+ "$")).
  rewrite parse_render by done.
  change (RegExp.parseFrom ?st "$")
    with (Ok (RegExp.PState (RegExp.AssertEnd :: RegExp.parsed st) RegExp.Normal)).
  cbn [mbind result_bind RegExp.pmode RegExp.parsed].
  by rewrite reverse_cons, reverse_app, reverse_involutive.
Qed.

(** *** Matching with that regular expression *)

Lemma allAtom_Dot s : allAtom RegExp.Dot s = noLineTerminator s.
Proof.
  unfold noLineTerminator. induction s as [|c s IH]; [done|].
  cbn [allAtom noChar RegExp.atomMatches]. rewrite IH.
  destruct (noChar LF s), (noChar "013" s); rewrite ?andb_true_r, ?andb_false_r;
    try done.
  by destruct c as [[] [] [] [] [] [] [] []].
Qed.

Lemma matchHere_tokens ts b s :
  allAtom RegExp.Dot s = true →
  RegExp.matchHere ((termOf <$> ts) ++ [RegExp.AssertEnd]) b s = tokensMatch ts s.
Proof.
  revert b s. induction ts as [|t ts IH]; intros b s Hs.
  - cbn. apply andb_true_r.
  - rewrite fmap_cons. rewrite <- app_comm_cons.
    set (r := (termOf <$> ts) ++ [RegExp.AssertEnd]) in *.
    destruct t as [c| |]; cbn [termOf].
    + cbn [RegExp.matchHere tokensMatch RegExp.eat]. destruct s as [|c' s]; [done|].
      cbn [allAtom] in Hs. apply andb_prop in Hs as [_ Hs].
      cbn [RegExp.eat RegExp.atomMatches]. by rewrite IH.
    + cbn [RegExp.matchHere tokensMatch]. revert b.
      induction s as [|c' s IHs]; intros b.
      * rewrite IH by done. by rewrite orb_false_r.
      * cbn [allAtom] in Hs. apply andb_prop in Hs as [Hc Hs'].
        rewrite IH by (cbn [allAtom]; by rewrite Hc, Hs').
        rewrite (IHs Hs' false). cbn [RegExp.atomMatches]. apply orb_comm.
    + cbn [RegExp.matchHere tokensMatch]. revert b.
      induction s as [|c' s IHs]; intros b.
      * rewrite IH by done. by rewrite orb_false_r.
      * cbn [allAtom] in Hs. apply andb_prop in Hs as [Hc Hs'].
        rewrite IH by (cbn [allAtom]; by rewrite Hc, Hs').
        rewrite (IHs Hs' false). rewrite Hc. apply orb_comm.
Qed.

(** X1. Apart from [?] and from line terminators in the path,
    [matchesGlob] is the plain glob matcher: for a pattern with a [*] and
    without [?], and a path without line terminator, it does not throw and
    matches the whole path against the trimmed pattern, where [**] stands
    for any characters, [*] for any characters but [/], and every other
    character for itself. *)
Theorem matchesGlob_agrees (relPath pattern : string) :
  includes pattern "*" = true → noChar "?" pattern = true →
  noLineTerminator relPath = true →
  matchesGlob relPath pattern = Ok (globSpec relPath (trim pattern)).
Proof.
  intros Hstar Hq Hlt. unfold matchesGlob.
  rewrite includes_star_trim, Hstar.
  assert (truthy (trim pattern) = true) as ->.
  { rewrite <- includes_star_trim in Hstar. by destruct (trim pattern). }
  cbn [negb]. rewrite reStr_render, new_render.
  - cbn. rewrite test_anchored, matchHere_tokens; [done|].
    by rewrite allAtom_Dot.
  - apply noLit_globTokens. unfold trim.
    by rewrite noChar_trimEnd, noChar_trimStart.
  - apply wfTokens_globTokens.
Qed.

Lemma matchesGlob_agrees_witness :
  includes " src/**/*.test.ts" "*" = true
  ∧ noChar "?" " src/**/*.test.ts" = true
  ∧ noLineTerminator "src/a/b/c.test.ts" = true
  ∧ matchesGlob "src/a/b/c.test.ts" " src/**/*.test.ts"
    = Ok (globSpec "src/a/b/c.test.ts" "src/**/*.test.ts").
Proof.
  exact (conj eq_refl (conj eq_refl (conj eq_refl
    (matchesGlob_agrees "src/a/b/c.test.ts" " src/**/*.test.ts"
       eq_refl eq_refl eq_refl)))).
Defined.

(** *** With [?] in the pattern *)

Lemma parse_token_any acc t :
  wfTokens [t] = true →
  (∃ acc', RegExp.parseFrom (RegExp.PState acc RegExp.Normal) (regexOf t)
           = Ok (RegExp.PState acc' RegExp.Normal))
  ∨ RegExp.parseFrom (RegExp.PState acc RegExp.Normal) (regexOf t)
    = Throw SyntaxError.
Proof.
  intros Hwf. destruct (noLit "?" [t]) eqn:Hq.
  { left. eexists. by apply parse_token. }
  destruct t as [c| |]; [|done..]. cbn [noLit] in Hq.
  rewrite andb_true_r in Hq. apply negb_false_iff, Ascii.eqb_eq in Hq as <-.
  cbn [regexOf]. unfold escChar. cbn [isEscaped RegExp.parseFrom].
  change (RegExp.step (RegExp.PState acc RegExp.Normal) "?")
    with (RegExp.quantify "?" (RegExp.PState acc RegExp.Normal)).
  unfold RegExp.quantify. cbn [RegExp.parsed].
  destruct acc as [|[| |a []] acc]; cbn; eauto.
Qed.

Lemma parse_render_any ts acc tail :
  wfTokens ts = true →
  (∃ acc', RegExp.parseFrom (RegExp.PState acc RegExp.Normal)
             (render regexOf ts +:+ tail)
           = RegExp.parseFrom (RegExp.PState acc' RegExp.Normal) tail)
  ∨ RegExp.parseFrom (RegExp.PState acc RegExp.Normal)
      (render regexOf ts +:+ tail)
    = Throw SyntaxError.
Proof.
  revert acc. induction ts as [|t ts IH]; intros acc Hwf; [left; by eexists|].
  apply wfTokens_cons in Hwf as [Hwf1 Hwf].
  rewrite render_cons, append_assoc, parseFrom_app.
  destruct (parse_token_any acc t Hwf1) as [[acc' ->]| ->]; [|by right].
  cbn [mbind result_bind]. apply IH, Hwf.
Qed.

(** Whatever the pattern, [new RegExp] returns or throws a syntax error:
    the regular expressions that [matchesGlob] builds do not leave the
    modelled fragment. *)
Lemma new_reStr p :
  (∃ re, RegExp.new ("^" +:+ reStr p +:+ "$") = Ok re)
  ∨ RegExp.new ("^" +:+ reStr p +:+ "$") = Throw SyntaxError.
Proof.
  rewrite reStr_render. unfold RegExp.new. norm_app.
  change (RegExp.parseFrom (RegExp.PState [] RegExp.Normal)
            (String "^" (render regexOf (globTokens p) +:+ "$")))
    with (RegExp.parseFrom (RegExp.PState [RegExp.AssertStart] RegExp.Normal)
            (render regexOf (globTokens p) +:+ "$")).
  destruct (parse_render_any (globTokens p) [RegExp.AssertStart] "$"
              (wfTokens_globTokens p)) as [[acc' ->]| ->]; [|by right].
  left. by eexists.
Qed.

Lemma matchesGlob_throws (relPath pattern : string) (e : exn) :
  matchesGlob relPath pattern = Throw e → e = SyntaxError.
Proof.
  unfold matchesGlob. repeat case_match; try done.
  destruct (new_reStr (trim pattern)) as [[re ->]| ->]; cbn; congruence.
Qed.

End GlobFacts.

(** ** The filter pipeline *)

Section FilterFacts.
Import JS NodePath Glob Spec.

Lemma filterM_elem {A} (f : A → result bool) (l l' : list A) (x : A) :
  filterM f l = Ok l' → x ∈ l' → x ∈ l ∧ f x = Ok true.
Proof.
  revert l'. induction l as [|y l IH]; intros l'; cbn [filterM].
  - intros [= <-] Hx. by apply elem_of_nil in Hx.
  - destruct (f y) as [b|] eqn:Hy; [|done]. cbn.
    destruct (filterM f l) as [r|]; [|done]. cbn. intros [= <-] Hx.
    destruct b.
    + apply elem_of_cons in Hx as [->|Hx].
      * split; [left|done].
      * destruct (IH r eq_refl Hx). split; [by right|done].
    + destruct (IH r eq_refl Hx). split; [by right|done].
Qed.

Lemma filterM_returns {A} (f : A → result bool) (l : list A) :
  (∀ x, x ∈ l → ∃ b, f x = Ok b) → ∃ l', filterM f l = Ok l'.
Proof.
  induction l as [|y l IH]; intros H; cbn [filterM]; [by eexists|].
  destruct (H y) as [b ->]; [left|]. cbn.
  destruct IH as [r ->]; [intros x Hx; apply H; by right|].
  cbn. by eexists.
Qed.

Lemma someM_returns {A} (f : A → result bool) (l : list A) :
  (∀ x, x ∈ l → ∃ b, f x = Ok b) → ∃ b, someM f l = Ok b.
Proof.
  induction l as [|y l IH]; intros H; cbn [someM]; [by eexists|].
  destruct (H y) as [b ->]; [left|]. cbn. destruct b; [by eexists|].
  apply IH. intros x Hx. apply H. by right.
Qed.

Lemma isIncluded_returns (rel : string) (patterns : list string) :
  Forall usable patterns → ∃ b, isIncluded rel patterns = Ok b.
Proof.
  intros H. destruct patterns as [|p ps]; [by eexists|].
  apply someM_returns. intros x Hx.
  rewrite Forall_forall in H. apply (H x Hx).
Qed.

Lemma isExcluded_returns (rel : string) (patterns : list string) :
  Forall usable patterns → ∃ b, isExcluded rel patterns = Ok b.
Proof.
  intros H. destruct patterns as [|p ps]; [by eexists|].
  apply someM_returns. intros x Hx.
  rewrite Forall_forall in H. apply (H x Hx).
Qed.

Lemma applyFilters_returns (includeList exceptList filePaths : list string) :
  Forall usable includeList → Forall usable exceptList →
  ∃ l, applyFilters includeList exceptList filePaths = Ok l.
Proof.
  intros Hi He. unfold applyFilters.
  destruct (filterM_returns (λ rel, isIncluded rel includeList)
              (List.filter (λ rel, negb (isDefaultExcluded rel)) filePaths))
    as [l2 ->].
  { intros x _. by apply isIncluded_returns. }
  cbn. apply filterM_returns. intros x _.
  destruct (isExcluded_returns x exceptList He) as [b ->]. by eexists.
Qed.

(** What is left after the three stages has passed each of them. *)
Lemma applyFilters_elem (includeList exceptList filePaths l : list string) rel :
  applyFilters includeList exceptList filePaths = Ok l → rel ∈ l →
  rel ∈ filePaths ∧ isDefaultExcluded rel = false
  ∧ isIncluded rel includeList = Ok true
  ∧ isExcluded rel exceptList = Ok false.
Proof.
  unfold applyFilters. intros H Hrel.
  destruct (filterM _ (List.filter _ filePaths)) as [l2|] eqn:H2; [|done].
  cbn in H.
  destruct (filterM_elem _ _ _ _ H Hrel) as [Hrel2 Hex].
  destruct (filterM_elem _ _ _ _ H2 Hrel2) as [Hrel1 Hin].
  apply list_elem_of_In, filter_In in Hrel1 as [Hrel0 Hdef].
  apply list_elem_of_In in Hrel0.
  repeat split; try done.
  - by destruct (isDefaultExcluded rel).
  - destruct (isExcluded rel exceptList) as [[]|]; done.
Qed.

Lemma usable_star_ts : usable "*.ts".
Proof. intros rel. rewrite matchesGlob_star_ts. by eexists. Qed.

Lemma usable_a_ts : usable "a.ts".
Proof. intros rel. by rewrite matchesGlob_exact; [eexists|..]. Qed.

(** C6. The three pattern stages run in the order default exclusion,
    include, except.  Whatever the result holds has passed all three, so a
    path with a default-excluded segment is dropped even when it matches an
    include pattern, and the pipeline returns a list whenever no pattern
    makes [matchesGlob] throw.  With the include pattern [*.ts] and the
    except pattern [a.ts], the path [a.ts] matches the include pattern and
    is dropped.  The order shows where a pattern is malformed: a stage does
    not look at a path that an earlier stage has dropped. *)
Theorem filters_in_order :
  (∀ includeList exceptList filePaths l rel,
     applyFilters includeList exceptList filePaths = Ok l → rel ∈ l →
     rel ∈ filePaths ∧ isDefaultExcluded rel = false
     ∧ isIncluded rel includeList = Ok true
     ∧ isExcluded rel exceptList = Ok false)
  ∧ (∀ includeList exceptList filePaths l rel,
       applyFilters includeList exceptList filePaths = Ok l →
       isDefaultExcluded rel = true → rel ∉ l)
  ∧ (∀ includeList exceptList filePaths,
       Forall usable includeList → Forall usable exceptList →
       ∃ l, applyFilters includeList exceptList filePaths = Ok l)
  ∧ (isDefaultExcluded "node_modules/a.ts" = true
     ∧ isIncluded "node_modules/a.ts" ["**/*.ts"] = Ok true
     ∧ applyFilters ["**/*.ts"] [] ["node_modules/a.ts"; "src/a.ts"] = Ok ["src/a.ts"])
  ∧ (matchesGlob "a.ts" "*.ts" = Ok true
     ∧ ∀ filePaths, ∃ l, applyFilters ["*.ts"] ["a.ts"] filePaths = Ok l ∧ "a.ts" ∉ l)
  ∧ (applyFilters ["?*"] [] ["x"] = Throw SyntaxError
     ∧ applyFilters ["?*"] [] ["node_modules/x"] = Ok []
     ∧ applyFilters [] ["?*"] ["x.js"] = Throw SyntaxError
     ∧ applyFilters ["*.ts"] ["?*"] ["x.js"] = Ok []).
Proof.
  split; [apply applyFilters_elem|].
  split.
  { intros inc exc paths l rel H Hdef Hrel.
    destruct (applyFilters_elem _ _ _ _ _ H Hrel) as (_ & Hno & _). congruence. }
  split; [apply applyFilters_returns|].
  split; [done|]. split; [|done].
  split; [done|]. intros paths.
  destruct (applyFilters_returns ["*.ts"] ["a.ts"] paths) as [l Hl].
  { repeat constructor; [apply usable_star_ts]. }
  { repeat constructor; [apply usable_a_ts]. }
  exists l. split; [done|]. intros Hrel.
  by destruct (applyFilters_elem _ _ _ _ _ Hl Hrel) as (_ & _ & _ & ?).
Qed.

Lemma filters_in_order_witness :
  applyFilters ["*.ts"; "**/*.ts"] ["a.ts"]
    ["a.ts"; "b.ts"; "node_modules/c.ts"; "d.js"] = Ok ["b.ts"]
  ∧ isDefaultExcluded "node_modules/c.ts" = true
  ∧ isIncluded "node_modules/c.ts" ["*.ts"; "**/*.ts"] = Ok true
  ∧ ("node_modules/c.ts" ∉ ["b.ts"])
  ∧ isIncluded "b.ts" ["*.ts"; "**/*.ts"] = Ok true.
Proof.
  assert (applyFilters ["*.ts"; "**/*.ts"] ["a.ts"]
            ["a.ts"; "b.ts"; "node_modules/c.ts"; "d.js"] = Ok ["b.ts"]) as H
    by reflexivity.
  assert (isDefaultExcluded "node_modules/c.ts" = true) as Hd by reflexivity.
  assert ("b.ts" ∈ ["b.ts"]) as Hb by constructor.
  exact (conj H (conj Hd (conj eq_refl (conj
    (proj1 (proj2 filters_in_order) _ _ _ _ _ H Hd)
    (proj1 (proj2 (proj2 (proj1 filters_in_order _ _ _ _ _ H Hb)))))))).
Defined.

End FilterFacts.

(** ** The changed files of [git status] *)

Section GitFacts.
Import JS Git Spec.

Lemma gitLine_app (paths : list string) (line : string) :
  gitLine paths line = paths ++ gitLine [] line.
Proof.
  unfold gitLine. repeat case_match; by rewrite ?app_nil_r.
Qed.

Lemma foldl_gitLine (paths : list string) (ls : list string) :
  foldl gitLine paths ls = paths ++ flat_map (gitLine []) ls.
Proof.
  revert paths. induction ls as [|l ls IH]; intros paths; cbn [foldl flat_map].
  - by rewrite app_nil_r.
  - by rewrite IH, gitLine_app, app_assoc.
Qed.

Lemma split_nl_lines (s : string) : split nl s = Doc.lines s.
Proof.
  unfold split, Doc.lines. induction s as [|c s IH]; [done|].
  cbn [splitGo splitClass]. change (String.length nl - 1) with 0.
  unfold nl at 1. rewrite prefix_one, IH. done.
Qed.

Lemma charIs_status (i : nat) (line : string) (c : ascii) :
  i < 2 → charIs i (slice 0 2 line) c = charIs i line c.
Proof.
  intros Hi. destruct line as [|x [|y line]]; [done| |].
  - destruct i as [|[|i]]; [done|done|lia].
  - destruct i as [|[|i]]; [done|done|lia].
Qed.

Lemma whitespaceOnly_append (s t : string) :
  whitespaceOnly (s +:+ t) = whitespaceOnly s && whitespaceOnly t.
Proof.
  induction s as [|c s IH]; [done|].
  rewrite append_cons. cbn [whitespaceOnly]. by rewrite IH, andb_assoc.
Qed.

Lemma length_trimStart (s : string) :
  trimStart s = s ∨ String.length (trimStart s) < String.length s.
Proof.
  induction s as [|c s IH]; [by left|].
  cbn [trimStart]. destruct (isWhiteSpace c); [|by left].
  right. cbn [String.length]. destruct IH as [->|]; lia.
Qed.

Lemma length_trimEnd (s : string) :
  String.length (trimEnd s) ≤ String.length s.
Proof.
  induction s as [|c s IH]; [done|].
  cbn [trimEnd]. destruct (trimEnd s); [destruct (isWhiteSpace c)|];
    cbn [String.length] in *; lia.
Qed.

(** A non-empty string that [trim] leaves alone begins with a code unit
    that is not white space, and [trimEnd] leaves it alone. *)
Lemma trim_fixed (s : string) :
  trim s = s → s ≠ "" →
  (∃ c s', s = String c s' ∧ isWhiteSpace c = false) ∧ trimEnd s = s.
Proof.
  unfold trim. intros Ht Hne.
  assert (trimStart s = s) as Hs.
  { destruct (length_trimStart s) as [|Hlt]; [done|].
    pose proof (length_trimEnd (trimStart s)) as Hle.
    rewrite Ht in Hle. lia. }
  rewrite Hs in Ht. split; [|done].
  destruct s as [|c s]; [done|]. exists c, s. split; [done|].
  cbn [trimStart] in Hs. destruct (isWhiteSpace c); [|done].
  destruct (length_trimStart s) as [H|H]; rewrite Hs in H.
  - apply (f_equal String.length) in H. cbn in H. lia.
  - cbn in H. lia.
Qed.

Lemma trimEnd_append (t b : string) :
  trimEnd b = b → b ≠ "" → trimEnd (t +:+ b) = t +:+ b.
Proof.
  intros Hb Hne. induction t as [|c t IH]; [done|].
  rewrite append_cons. cbn [trimEnd]. rewrite IH.
  destruct (t +:+ b) eqn:Heq; [|done].
  destruct t; [|done]. by destruct b.
Qed.

Lemma trim_between (a m b : string) :
  trim a = a → a ≠ "" → trim b = b → b ≠ "" →
  trim (a +:+ m +:+ b) = a +:+ m +:+ b.
Proof.
  intros Ha Hane Hb Hbne.
  destruct (trim_fixed a Ha Hane) as [(c & a' & -> & Hc) _].
  destruct (trim_fixed b Hb Hbne) as [_ Hbe].
  unfold trim. rewrite append_cons. cbn [trimStart]. rewrite Hc.
  rewrite <- append_cons, <- append_assoc. by apply trimEnd_append.
Qed.

Lemma includes_append (a sub b : string) :
  includes (a +:+ sub +:+ b) sub = true.
Proof.
  induction a as [|c a IH].
  - change ("" +:+ sub +:+ b) with (sub +:+ b).
    destruct (sub +:+ b) eqn:Heq; cbn [includes]; rewrite <- Heq;
      by rewrite prefix_append.
  - rewrite append_cons. cbn [includes]. rewrite IH. apply orb_true_r.
Qed.

(** Where the separator [" -> "] begins: a position in [a] followed by the
    separator begins it iff it does so with [a] followed by one blank. *)
Lemma prefix_arrow (a rest : string) :
  a ≠ "" →
  String.prefix " -> " (a +:+ " -> " +:+ rest)
  = String.prefix " -> " (a +:+ " ").
Proof.
  intros Hne.
  destruct a as [|c1 [|c2 [|c3 [|c4 a]]]]; [done|..];
    rewrite ?append_cons; change ("" +:+ ?x) with x;
    cbn [String.prefix]; repeat (destruct (ascii_dec _ _); try done).
  by destruct (a +:+ _), (a +:+ " ").
Qed.

Lemma splitGo_none (sep s : string) :
  includes s sep = false → 0 < String.length sep → splitGo sep 0 s = [s].
Proof.
  intros H Hsep. induction s as [|c s IH]; [done|].
  cbn [includes] in H. apply orb_false_elim in H as [Hp Hi].
  cbn [splitGo]. by rewrite Hp, IH.
Qed.

Lemma splitGo_nonempty (sep : string) (k : nat) (s : string) :
  splitGo sep k s ≠ [].
Proof.
  revert k. induction s as [|c s IH]; intros k; [done|].
  cbn [splitGo]. destruct k; [|apply IH].
  destruct (String.prefix sep (String c s)); [done|].
  specialize (IH 0). by destruct (splitGo sep 0 s).
Qed.

(** Splitting at the arrow when no arrow begins in [old]: the first piece
    is [old], the other pieces are those of [new]. *)
Lemma split_arrow (old new : string) :
  includes (old +:+ " ") " -> " = false →
  split " -> " (old +:+ " -> " +:+ new) = old :: split " -> " new.
Proof.
  unfold split. induction old as [|c old IH]; intros H.
  - change ("" +:+ " -> " +:+ new)
      with (String " " (String "-" (String ">" (String " " new)))).
    by destruct new.
  - rewrite append_cons in H. cbn [includes] in H.
    apply orb_false_elim in H as [Hp Hi].
    assert (String.prefix " -> " (String c (old +:+ " -> " +:+ new)) = false)
      as Hpre.
    { rewrite <- append_cons, prefix_arrow by done. by rewrite append_cons. }
    rewrite append_cons. cbn [splitGo]. by rewrite Hpre, IH.
Qed.

Lemma pop_split_arrow (old new : string) :
  includes (old +:+ " ") " -> " = false → includes new " -> " = false →
  pop (split " -> " (old +:+ " -> " +:+ new)) = new.
Proof.
  intros Ho Hn. rewrite split_arrow by done. unfold split.
  rewrite splitGo_none; [done|done|cbn; lia].
Qed.

Lemma whitespaceOnly_fixed (s : string) :
  trim s = s → s ≠ "" → whitespaceOnly s = false.
Proof.
  intros Ht Hne. pose proof (truthy_trim s) as H. rewrite Ht in H.
  destruct s; [done|]. by destruct (whitespaceOnly _).
Qed.

Lemma gitLine_deleted (line : string) :
  deleteFlag line = true → gitLine [] line = [].
Proof.
  unfold deleteFlag, gitLine. intros H.
  destruct (negb (truthy (trim line))); [done|].
  by rewrite !charIs_status, H by lia.
Qed.

Lemma gitLine_blank (line : string) :
  whitespaceOnly line = true → gitLine [] line = [].
Proof. unfold gitLine. intros H. by rewrite truthy_trim, H. Qed.

Lemma gitLine_path (x y sp : ascii) (path : string) :
  x ≠ "D"%char → y ≠ "D"%char →
  whitespaceOnly (statusLine x y sp path) = false →
  gitLine [] (statusLine x y sp path)
  = [if includes (trim path) " -> "
     then trim (pop (split " -> " (trim path)))
     else trim path].
Proof.
  intros Hx Hy Hw. unfold gitLine. rewrite truthy_trim, Hw.
  rewrite !charIs_status by lia. unfold statusLine.
  cbn [negb charIs charAt String.get sliceFrom dropStr].
  apply Ascii.eqb_neq in Hx, Hy. by rewrite Hx, Hy.
Qed.

(** A rename line [XY old -> new] without a delete flag contributes [new]
    alone, where [old] and [new] are non-empty, have no white space at their
    ends and no arrow inside ([old] also not with the blank that follows
    it). *)
Lemma gitLine_rename (x y sp : ascii) (old new : string) :
  x ≠ "D"%char → y ≠ "D"%char →
  trim old = old → old ≠ "" → trim new = new → new ≠ "" →
  includes (old +:+ " ") " -> " = false → includes new " -> " = false →
  gitLine [] (statusLine x y sp (old +:+ " -> " +:+ new)) = [new].
Proof.
  intros Hx Hy Ho Hone Hn Hnne Hio Hin.
  rewrite gitLine_path; [|done|done|].
  - rewrite trim_between by done.
    by rewrite includes_append, pop_split_arrow, Hn.
  - unfold statusLine. cbn [whitespaceOnly].
    rewrite !whitespaceOnly_append, (whitespaceOnly_fixed new) by done.
    by rewrite !andb_false_r.
Qed.

Lemma getGitChangedFiles_lines (E : env) (out : string) :
  gitStatus E = Ok out →
  getGitChangedFiles E = Ok (flat_map (gitLine []) (split nl out)).
Proof.
  intros H. unfold getGitChangedFiles, changedFiles. rewrite H. cbn.
  by rewrite (foldl_gitLine []).
Qed.

(** C7, with the lines on which the script leaves it.  Whatever the
    command prints, [getGitChangedFiles] returns what the lines contribute,
    in the order of the lines; a line with the delete flag in one of its
    two status columns contributes nothing, and neither does a blank line.
    Every other line [XY path] contributes one path: the trimmed text of
    [path], or, when that text holds an arrow, the trimmed text after its
    last arrow.  So [R  old.ts -> new.ts] gives [new.ts]; but the arrow is
    looked for on every line and inside quoted names too: the untracked
    file [a -> b], printed as [?? "a -> b"], gives [b"], and the rename of
    ["a -> b"] to ["c -> d"] gives [d"]. *)
Theorem git_changed_files :
  (∀ E out, gitStatus E = Ok out →
     getGitChangedFiles E = Ok (flat_map (gitLine []) (split nl out)))
  ∧ (∀ E ls, gitStatus E = Ok (join nl ls) → ls ≠ [] →
       Forall (λ l, noChar LF l = true) ls →
       getGitChangedFiles E = Ok (flat_map (gitLine []) ls))
  ∧ (∀ line, deleteFlag line = true → gitLine [] line = [])
  ∧ (∀ line, whitespaceOnly line = true → gitLine [] line = [])
  ∧ (∀ x y sp path,
       x ≠ "D"%char → y ≠ "D"%char →
       whitespaceOnly (statusLine x y sp path) = false →
       gitLine [] (statusLine x y sp path)
       = [if includes (trim path) " -> "
          then trim (pop (split " -> " (trim path)))
          else trim path])
  ∧ getGitChangedFiles
      (gitEnv (join nl [" M src/a.ts"; "D  removed.ts"; "R  old.ts -> new.ts";
                        "?? z.ts"; ""]))
    = Ok ["src/a.ts"; "new.ts"; "z.ts"]
  ∧ trim (sliceFrom 3 ("?? " +:+ quoted "a -> b")) = quoted "a -> b"
  ∧ getGitChangedFiles (gitEnv ("?? " +:+ quoted "a -> b" +:+ nl))
    = Ok ["b" +:+ dquote]
  ∧ getGitChangedFiles
      (gitEnv ("R  " +:+ quoted "a -> b" +:+ " -> " +:+ quoted "c -> d" +:+ nl))
    = Ok ["d" +:+ dquote].
Proof.
  split; [apply getGitChangedFiles_lines|].
  split.
  { intros E ls Hout Hne Hall. rewrite (getGitChangedFiles_lines E _ Hout).
    by rewrite split_nl_lines, lines_join, flat_map_lines_single. }
  split; [apply gitLine_deleted|]. split; [apply gitLine_blank|].
  split; [apply gitLine_path|].
  split; [by vm_compute|]. split; [by vm_compute|].
  split; by vm_compute.
Qed.

End GitFacts.

(** ** Collecting the paths *)

Section CollectFacts.
Import JS Collect Spec.
Variable E : env.

Lemma addPath_consistent (st : cstate) (rel : string) :
  consistent st → consistent (addPath st rel).
Proof.
  intros [Hnd Hseen]. unfold addPath. case_bool_decide as Hin; [done|].
  split; cbn.
  - apply NoDup_app. split; [done|]. split; [|apply NoDup_singleton].
    intros x Hx ->%list_elem_of_singleton. by apply Hin, Hseen.
  - intros x. rewrite elem_of_union, elem_of_singleton, elem_of_app,
      list_elem_of_singleton, Hseen. tauto.
Qed.

Lemma addPath_elem (st : cstate) (rel x : string) :
  consistent st →
  x ∈ collected (addPath st rel) ↔ x ∈ collected st ∨ x = rel.
Proof.
  intros [Hnd Hseen]. unfold addPath. case_bool_decide as Hin; cbn.
  - split; [by left|]. intros [?| ->]; [done|]. by apply Hseen.
  - by rewrite elem_of_app, list_elem_of_singleton.
Qed.

Lemma foldl_addPath (g : string → string) (files : list string) (st : cstate) :
  consistent st →
  consistent (foldl (λ st f, addPath st (g f)) st files)
  ∧ ∀ x, x ∈ collected (foldl (λ st f, addPath st (g f)) st files)
         ↔ x ∈ collected st ∨ x ∈ g <$> files.
Proof.
  revert st. induction files as [|f files IH]; intros st Hst; cbn [foldl].
  - split; [done|]. intros x. rewrite fmap_nil, elem_of_nil. tauto.
  - destruct (IH (addPath st (g f)) (addPath_consistent _ _ Hst)) as [Hc Hx].
    split; [done|]. intros x.
    rewrite Hx, addPath_elem, fmap_cons, elem_of_cons by done. tauto.
Qed.

Lemma collectArg_spec (st : cstate) (arg : string) :
  consistent st →
  consistent (collectArg E st arg)
  ∧ ∀ x, x ∈ collected (collectArg E st arg)
         ↔ x ∈ collected st ∨ x ∈ argPaths E arg.
Proof.
  intros Hst. unfold collectArg, argPaths.
  destruct (statSync E (resolve E arg)) as [| |children|].
  - split; [done|]. intros x. cbn. rewrite elem_of_nil. tauto.
  - split; [by apply addPath_consistent|]. intros x.
    rewrite addPath_elem, list_elem_of_singleton by done. tauto.
  - by apply foldl_addPath.
  - split; [done|]. intros x. cbn. rewrite elem_of_nil. tauto.
Qed.

Lemma collectLoop_from (pathArgs : list string) (st : cstate) :
  consistent st →
  consistent (foldl (collectArg E) st pathArgs)
  ∧ ∀ x, x ∈ collected (foldl (collectArg E) st pathArgs)
         ↔ x ∈ collected st ∨ ∃ arg, arg ∈ pathArgs ∧ x ∈ argPaths E arg.
Proof.
  revert st. induction pathArgs as [|a pathArgs IH]; intros st Hst; cbn [foldl].
  - split; [done|]. intros x. split; [by left|].
    intros [|(arg & Harg & _)]; [done|]. by apply elem_of_nil in Harg.
  - destruct (collectArg_spec st a Hst) as [Hc Ha].
    destruct (IH _ Hc) as [Hc' Hx]. split; [done|]. intros x.
    rewrite Hx, Ha. split.
    + intros [[|]|(arg & Harg & ?)]; [by left| |].
      * right. exists a. split; [left|done].
      * right. exists arg. split; [by right|done].
    + intros [|(arg & Harg & ?)]; [by left; left|].
      apply elem_of_cons in Harg as [->|Harg]; [by left; right|].
      right. by exists arg.
Qed.

Lemma collectLoop_spec (pathArgs : list string) :
  NoDup (collected (collectLoop E pathArgs))
  ∧ ∀ x, x ∈ collected (collectLoop E pathArgs)
         ↔ ∃ arg, arg ∈ pathArgs ∧ x ∈ argPaths E arg.
Proof.
  destruct (collectLoop_from pathArgs (CState ∅ [] [])) as [[Hnd _] Hx].
  { split; [apply NoDup_nil_2|]. intros x. cbn.
    rewrite elem_of_empty, elem_of_nil. tauto. }
  split; [done|]. intros x. unfold collectLoop. rewrite Hx. cbn.
  rewrite elem_of_nil. tauto.
Qed.

(** C8. The result of [collectPaths] holds every path that some argument
    reaches, holds no path twice, and is sorted in the lexicographic order
    of strings. *)
Theorem collect_dedup_sorted (pathArgs : list string) :
  NoDup (collectPaths E pathArgs)
  ∧ (∀ rel, rel ∈ collectPaths E pathArgs
            ↔ ∃ arg, arg ∈ pathArgs ∧ rel ∈ argPaths E arg)
  ∧ StronglySorted String.le (collectPaths E pathArgs)
  ∧ Sorted String.le (collectPaths E pathArgs).
Proof.
  destruct (collectLoop_spec pathArgs) as [Hnd Hx].
  unfold collectPaths, sort.
  split; [by rewrite merge_sort_Permutation|].
  split; [intros rel; by rewrite merge_sort_Permutation|].
  split; [apply StronglySorted_merge_sort; apply _|].
  apply Sorted_merge_sort; apply _.
Qed.

End CollectFacts.

(** The example of the specification: the folder [src] and a file in it,
    and the folder a second time. *)
Lemma collect_example :
  Collect.collectPaths Spec.treeEnv ["src"; "src/a.ts"; "src"]
  = ["src/a.ts"; "src/b.ts"; "src/lib/c.ts"; "src/node_modules/x.js"].
Proof. by vm_compute. Qed.

(** ** [main]: nothing left after filtering *)

Section MainFacts.
Import JS Glob Collect Git Main Spec.
Variable E : env.

Lemma warn_quiet (st : cstate) (msg : string) :
  Forall (λ e, writes e = false) (warnings st) →
  Forall (λ e, writes e = false) (warnings (warn st msg)).
Proof. intros H. cbn. apply Forall_app. split; [done|]. by constructor. Qed.

Lemma addPath_warnings (st : cstate) (rel : string) :
  warnings (addPath st rel) = warnings st.
Proof. unfold addPath. by case_bool_decide. Qed.

Lemma foldl_addPath_warnings (g : string → string) (files : list string) st :
  warnings (foldl (λ st f, addPath st (g f)) st files) = warnings st.
Proof.
  revert st. induction files as [|f files IH]; intros st; [done|].
  cbn [foldl]. by rewrite IH, addPath_warnings.
Qed.

Lemma collectArg_quiet (st : cstate) (arg : string) :
  Forall (λ e, writes e = false) (warnings st) →
  Forall (λ e, writes e = false) (warnings (collectArg E st arg)).
Proof.
  intros H. unfold collectArg.
  destruct (statSync E (resolve E arg)).
  - by apply warn_quiet.
  - by rewrite addPath_warnings.
  - by rewrite foldl_addPath_warnings.
  - by apply warn_quiet.
Qed.

Lemma collectWarnings_quiet (pathArgs : list string) :
  Forall (λ e, writes e = false) (collectWarnings E pathArgs).
Proof.
  unfold collectWarnings, collectLoop.
  assert (∀ st, Forall (λ e, writes e = false) (warnings st) →
            Forall (λ e, writes e = false)
              (warnings (foldl (collectArg E) st pathArgs))) as H.
  { induction pathArgs as [|a l IH]; intros st Hst; [done|].
    cbn [foldl]. by apply IH, collectArg_quiet. }
  apply H. constructor.
Qed.

Lemma candidates_quiet (o : options) :
  Forall (λ e, writes e = false) (candidates E o).1.
Proof.
  unfold candidates. destruct (useGit o).
  - by destruct (getGitChangedFiles E).
  - destruct (pathArgs o); [by repeat constructor|].
    apply collectWarnings_quiet.
Qed.

(** The effects of [selectFiles] are those of collecting the candidates. *)
Lemma selectFiles_effects (o : options) :
  (selectFiles E o).1 = (candidates E o).1.
Proof.
  unfold selectFiles. destruct (candidates E o) as [es [filePaths|oc]]; [|done].
  cbn. destruct (applyFilters _ _ filePaths); cbn; by rewrite app_nil_r.
Qed.

(** C9. When the filters leave no file, the run prints the notice "No
    files to merge after filtering." and ends with exit code 0; what it
    printed before are the warnings of the path collector; it neither
    creates the output directory nor writes a file. *)
Theorem empty_selection_exits_zero (argv : list string) (w : list effect) :
  selectFiles E (parseArgs E argv) = (w, Continue []) →
  main E argv = (w ++ [ConsoleLog "No files to merge after filtering."],
                 Stop (Exit 0))
  ∧ Forall (λ e, writes e = false) (main E argv).1.
Proof.
  intros H.
  assert (main E argv = (w ++ [ConsoleLog "No files to merge after filtering."],
                         Stop (Exit 0))) as Hmain.
  { unfold main. by rewrite H. }
  split; [done|]. rewrite Hmain. cbn [fst].
  apply Forall_app. split; [|by repeat constructor].
  pose proof (candidates_quiet (parseArgs E argv)) as Hq.
  by rewrite <- selectFiles_effects, H in Hq.
Qed.

(** When the filters leave files, [main] creates the output directory,
    writes the document of these files and reports. *)
Lemma main_writes_document (argv : list string) (w : list effect)
    (filePaths : list string) :
  selectFiles E (parseArgs E argv) = (w, Continue filePaths) →
  filePaths ≠ [] →
  let o := parseArgs E argv in
  let blocks := blocksOf E filePaths in
  let outPath := pathJoin E (outDir o) (resolvedName o +:+ ".md") in
  main E argv
  = (w ++ [MkdirSync (outDir o);
           WriteFileSync outPath (Doc.output (Doc.entries filePaths blocks) blocks);
           ConsoleLog ("Wrote " +:+ numToString (length filePaths) +:+
                       " files to " +:+ relative E outPath)],
     Continue tt).
Proof.
  intros H Hne. unfold main. rewrite H.
  destruct filePaths as [|p ps]; [done|]. done.
Qed.

(** C10. For every file that [main] has selected, the block of the file
    in the document that [main] writes is exactly the string "```" + header
    + newline + content + newline + "```" + newline, where the header is
    the language, a blank and the path, or the path alone, and the content
    is what [readFileSync] returns, unchanged; there is one block for each
    selected file.  Read line by line the block is the header line(s), the
    lines of the content, the closing fence on a line of its own and the
    empty piece after the last newline.  A content that ends with a newline
    leaves one empty line right before the closing fence; after a content
    that does not, the closing fence comes on the line after the last line
    of the content, and that line is empty only when the file is empty. *)
Theorem block_shape (argv : list string) (w : list effect)
    (filePaths : list string) (i : nat) (p : string) :
  selectFiles E (parseArgs E argv) = (w, Continue filePaths) →
  filePaths !! i = Some p →
  let content := readFileSync E (resolve E p) in
  let header := if truthy (Doc.lang p) then Doc.lang p +:+ " " +:+ p else p in
  let b := "```" +:+ header +:+ nl +:+ content +:+ nl +:+ "```" +:+ nl in
  let blocks := blocksOf E filePaths in
  blocks !! i = Some b
  ∧ length blocks = length filePaths
  ∧ (∃ dir file report,
       main E argv
       = (w ++ [MkdirSync dir;
                WriteFileSync file
                  (Doc.toc (Doc.entries filePaths blocks) +:+ nl +:+ nl +:+ join nl blocks);
                ConsoleLog report],
          Continue tt))
  ∧ Doc.lines b = Doc.lines ("```" +:+ header) ++ Doc.lines content ++ ["```"; ""]
  ∧ (∀ c, content = c +:+ nl →
       Doc.lines b = Doc.lines ("```" +:+ header) ++ Doc.lines c ++ [""; "```"; ""])
  ∧ (endsWith content nl = false →
       ∃ ls l, Doc.lines content = ls ++ [l] ∧ (l = "" → content = "")
         ∧ Doc.lines b = Doc.lines ("```" +:+ header) ++ ls ++ [l; "```"; ""]).
Proof.
  intros Hsel Hp content header b blocks.
  assert (b = Doc.block p content) as Hb by reflexivity.
  split.
  { unfold blocks, blocksOf. by rewrite list_lookup_fmap, Hp. }
  split; [apply length_fmap|].
  split.
  { assert (filePaths ≠ []) as Hne by (intros ->; done).
    pose proof (main_writes_document argv w filePaths Hsel Hne) as Hm.
    cbv zeta in Hm. rewrite Hm. by eexists _, _, _. }
  split; [rewrite Hb; apply lines_block|].
  split.
  { intros c Hc. rewrite Hb, Hc. apply lines_block_newline. }
  intros Hend. destruct (lines_last content) as (ls & l & Hls & Hl).
  exists ls, l. split; [done|]. split.
  - intros Hl'. destruct (Hl Hl') as [?|He]; [done|congruence].
  - rewrite Hb, lines_block, Hls. by rewrite <- !app_assoc.
Qed.

End MainFacts.

Lemma block_shape_witness :
  Main.selectFiles Spec.treeEnv (Main.parseArgs Spec.treeEnv ["src"])
    = ([], Continue ["src/a.ts"; "src/b.ts"; "src/lib/c.ts"])
  ∧ ["src/a.ts"; "src/b.ts"; "src/lib/c.ts"] !! 2 = Some "src/lib/c.ts"
  ∧ Main.blocksOf Spec.treeEnv ["src/a.ts"; "src/b.ts"; "src/lib/c.ts"] !! 2
    = Some ("```typescript src/lib/c.ts" +:+ JS.nl +:+
            "// /w/src/lib/c.ts" +:+ JS.nl +:+ JS.nl +:+ "```" +:+ JS.nl).
Proof.
  assert (Main.selectFiles Spec.treeEnv (Main.parseArgs Spec.treeEnv ["src"])
          = ([], Continue ["src/a.ts"; "src/b.ts"; "src/lib/c.ts"])) as H
    by (vm_compute; reflexivity).
  assert (["src/a.ts"; "src/b.ts"; "src/lib/c.ts"] !! 2 = Some "src/lib/c.ts")
    as Hp by reflexivity.
  exact (conj H (conj Hp
           (proj1 (block_shape Spec.treeEnv ["src"] [] _ 2 "src/lib/c.ts" H Hp)))).
Defined.

Lemma empty_selection_exits_zero_witness :
  Main.selectFiles Spec.treeEnv (Main.parseArgs Spec.treeEnv ["nm"; "gone"])
    = ([ConsoleWarn "Warning: skipping missing path: gone"], Continue [])
  ∧ Main.main Spec.treeEnv ["nm"; "gone"]
    = ([ConsoleWarn "Warning: skipping missing path: gone";
        ConsoleLog "No files to merge after filtering."], Stop (Exit 0))
  ∧ Forall (λ e, Spec.writes e = false) (Main.main Spec.treeEnv ["nm"; "gone"]).1.
Proof.
  assert (Main.selectFiles Spec.treeEnv (Main.parseArgs Spec.treeEnv ["nm"; "gone"])
          = ([ConsoleWarn "Warning: skipping missing path: gone"], Continue []))
    as H by (vm_compute; reflexivity).
  exact (conj H (empty_selection_exits_zero Spec.treeEnv _ _ H)).
Defined.

(** * Further properties of the code *)

(** ** Patterns *)

Section PatternFacts.
Import JS NodePath Glob Spec.

Lemma trimStart_head (s : string) :
  trimStart s = ""
  ∨ ∃ c r, trimStart s = String c r ∧ isWhiteSpace c = false.
Proof.
  induction s as [|c s IH]; [by left|].
  cbn [trimStart]. destruct (isWhiteSpace c) eqn:Hc; [done|].
  right. by exists c, s.
Qed.

Lemma trimEnd_cons (c : ascii) (s : string) :
  trimEnd (String c s)
  = match trimEnd s with
    | EmptyString => if isWhiteSpace c then EmptyString else String c EmptyString
    | t => String c t
    end.
Proof. done. Qed.

Lemma trimEnd_idem (s : string) : trimEnd (trimEnd s) = trimEnd s.
Proof.
  induction s as [|c s IH]; [done|].
  rewrite trimEnd_cons. destruct (trimEnd s) as [|c' t] eqn:Ht.
  - destruct (isWhiteSpace c) eqn:Hc; [done|]. rewrite trimEnd_cons.
    cbn [trimEnd]. by rewrite Hc.
  - rewrite trimEnd_cons. by rewrite IH.
Qed.

Lemma trimEnd_head (c : ascii) (r : string) :
  isWhiteSpace c = false → ∃ r', trimEnd (String c r) = String c r'.
Proof.
  intros Hc. cbn [trimEnd]. destruct (trimEnd r); [rewrite Hc|]; by eexists.
Qed.

Lemma trim_idem (s : string) : trim (trim s) = trim s.
Proof.
  unfold trim. destruct (trimStart_head s) as [->|(c & r & -> & Hc)]; [done|].
  destruct (trimEnd_head c r Hc) as [r' Hr]. rewrite Hr.
  cbn [trimStart]. rewrite Hc, <- Hr. apply trimEnd_idem.
Qed.

(** X2. White space around a pattern never matters: [matchesGlob] gives
    the same result, or the same exception, for a pattern and for the
    pattern trimmed. *)
Theorem matchesGlob_trim (relPath pattern : string) :
  matchesGlob relPath (trim pattern) = matchesGlob relPath pattern.
Proof. unfold matchesGlob. by rewrite trim_idem. Qed.

Lemma matchesGlob_returns (relPath pattern : string) :
  noChar "?" pattern = true → ∃ b, matchesGlob relPath pattern = Ok b.
Proof.
  intros Hq. unfold matchesGlob.
  destruct (negb (truthy (trim pattern))); [by eexists|].
  destruct (negb (includes (trim pattern) "*")); [by eexists|].
  rewrite reStr_render, new_render.
  - by eexists.
  - apply noLit_globTokens. unfold trim.
    by rewrite noChar_trimEnd, noChar_trimStart.
  - apply wfTokens_globTokens.
Qed.

(** X3. [matchesGlob] throws for no other reason than a [?] in a glob
    pattern: when it throws, the exception is the [SyntaxError] of
    [new RegExp], and the pattern holds both a [?] and a [*]. *)
Theorem matchesGlob_failure (relPath pattern : string) (e : exn) :
  matchesGlob relPath pattern = Throw e →
  e = SyntaxError ∧ includes pattern "?" = true ∧ includes pattern "*" = true.
Proof.
  intros H. split; [by eapply matchesGlob_throws|]. split.
  - rewrite includes_one. destruct (noChar "?" pattern) eqn:Hq; [|done].
    destruct (matchesGlob_returns relPath pattern Hq) as [b Hb]. congruence.
  - rewrite <- includes_star_trim. unfold matchesGlob in H.
    destruct (negb (truthy (trim pattern))); [done|].
    by destruct (includes (trim pattern) "*").
Qed.

Lemma matchesGlob_failure_witness :
  matchesGlob "a.ts" "?*.ts" = Throw SyntaxError
  ∧ SyntaxError = SyntaxError
  ∧ includes "?*.ts" "?" = true ∧ includes "?*.ts" "*" = true.
Proof.
  exact (conj eq_refl
           (matchesGlob_failure "a.ts" "?*.ts" SyntaxError eq_refl)).
Defined.

Lemma existsb_filter_app (f : string → bool) (g : string → bool) (l1 l2 : list string) :
  existsb f (List.filter g (l1 ++ l2))
  = existsb f (List.filter g l1) || existsb f (List.filter g l2).
Proof. by rewrite List.filter_app, List.existsb_app. Qed.

Lemma isDefaultExcluded_sep (a b : string) (sep : ascii) :
  isSeparator sep = true →
  isDefaultExcluded (a +:+ String sep b) = isDefaultExcluded a || isDefaultExcluded b.
Proof.
  intros Hsep. unfold isDefaultExcluded.
  by rewrite splitClass_app, existsb_filter_app.
Qed.

(** X4. Default exclusion looks at the path segment by segment: a path
    [a/b] (or [a\b]) is excluded iff [a] is or [b] is. *)
Theorem isDefaultExcluded_join (a b : string) :
  isDefaultExcluded (a +:+ "/" +:+ b) = isDefaultExcluded a || isDefaultExcluded b
  ∧ isDefaultExcluded (a +:+ "\" +:+ b) = isDefaultExcluded a || isDefaultExcluded b.
Proof. split; by apply isDefaultExcluded_sep. Qed.

(** X5. A name without separator is excluded iff it is one of the eleven
    listed names, as a whole: a name that only contains one of them is
    kept. *)
Theorem isDefaultExcluded_segment (seg : string) :
  noChar "/" seg = true → noChar "\" seg = true →
  isDefaultExcluded seg = arrayIncludes DEFAULT_EXCLUDE_SEGMENTS seg.
Proof.
  intros H1 H2. unfold isDefaultExcluded. rewrite splitClass_none.
  - destruct seg; [done|]. cbn [List.filter truthy existsb]. apply orb_false_r.
  - intros c Hc. unfold isSeparator in Hc. apply orb_prop in Hc as [Hc|Hc];
      apply Ascii.eqb_eq in Hc as ->; done.
Qed.

Lemma isDefaultExcluded_segment_witness :
  noChar "/" "node_modules.bak" = true ∧ noChar "\" "node_modules.bak" = true
  ∧ isDefaultExcluded "node_modules.bak"
    = arrayIncludes DEFAULT_EXCLUDE_SEGMENTS "node_modules.bak"
  ∧ isDefaultExcluded "node_modules.bak" = false.
Proof.
  exact (conj eq_refl (conj eq_refl (conj
    (isDefaultExcluded_segment "node_modules.bak" eq_refl eq_refl) eq_refl))).
Defined.

End PatternFacts.

(** ** The filters, once more *)

Section FilterMore.
Import JS NodePath Glob Spec.

Lemma someM_true {A} (f : A → result bool) (l : list A) :
  (∀ x, x ∈ l → ∃ b, f x = Ok b) →
  someM f l = Ok true ↔ ∃ x, x ∈ l ∧ f x = Ok true.
Proof.
  induction l as [|y l IH]; intros H; cbn [someM].
  - split; [done|]. intros (x & Hx & _). by apply elem_of_nil in Hx.
  - destruct (H y) as [b Hy]; [left|]. rewrite Hy. cbn. destruct b.
    + split; [|done]. intros _. exists y. split; [left|done].
    + rewrite IH by (intros x Hx; apply H; by right). split.
      * intros (x & Hx & Hfx). exists x. split; [by right|done].
      * intros (x & Hx & Hfx). apply elem_of_cons in Hx as [->|Hx];
          [congruence|by exists x].
Qed.

(** X6. With patterns on which [matchesGlob] does not throw: a path is
    excluded iff one of the except patterns matches it, and it is included
    iff the include list is empty or one of its patterns matches it. *)
Theorem pattern_lists (rel : string) (patterns : list string) :
  Forall usable patterns →
  (isExcluded rel patterns = Ok true
   ↔ ∃ p, p ∈ patterns ∧ matchesGlob rel p = Ok true)
  ∧ (isIncluded rel patterns = Ok true
     ↔ patterns = [] ∨ ∃ p, p ∈ patterns ∧ matchesGlob rel p = Ok true).
Proof.
  intros Hu. rewrite Forall_forall in Hu.
  assert (∀ x, x ∈ patterns → ∃ b, matchesGlob rel x = Ok b) as H
    by (intros x Hx; apply (Hu x Hx)).
  pose proof (someM_true (matchesGlob rel) patterns H) as Hs.
  destruct patterns as [|p ps].
  - cbn. split; split; try done; [|by left].
    intros (x & Hx & _). by apply elem_of_nil in Hx.
  - unfold isExcluded, isIncluded. rewrite Hs. split; [done|].
    split; [by right|]. by intros [|].
Qed.

Lemma usable_no_question (p : string) : noChar "?" p = true → usable p.
Proof. intros H rel. by apply matchesGlob_returns. Qed.

Lemma pattern_lists_witness :
  Forall usable ["*.test.ts"; "README.md"]
  ∧ (isExcluded "docs/README.md" ["*.test.ts"; "README.md"] = Ok true
     ↔ ∃ p, p ∈ ["*.test.ts"; "README.md"]
            ∧ matchesGlob "docs/README.md" p = Ok true).
Proof.
  assert (Forall usable ["*.test.ts"; "README.md"]) as H
    by (repeat constructor; by apply usable_no_question).
  exact (conj H (proj1 (pattern_lists "docs/README.md" _ H))).
Defined.

Lemma filter_sublist {A} (f : A → bool) (l : list A) :
  List.filter f l `sublist_of` l.
Proof.
  induction l as [|x l IH]; [constructor|].
  cbn [List.filter]. destruct (f x); by constructor.
Qed.

Lemma filterM_sublist {A} (f : A → result bool) (l l' : list A) :
  filterM f l = Ok l' → l' `sublist_of` l.
Proof.
  revert l'. induction l as [|x l IH]; intros l'; cbn [filterM].
  - intros [= <-]. constructor.
  - destruct (f x) as [b|]; [|done]. cbn.
    destruct (filterM f l) as [r|]; [|done]. cbn. intros [= <-].
    destruct b; constructor; by apply IH.
Qed.

Lemma filterM_keeps {A} (f : A → result bool) (l l' : list A) (x : A) :
  filterM f l = Ok l' → x ∈ l → f x = Ok true → x ∈ l'.
Proof.
  revert l'. induction l as [|y l IH]; intros l'; cbn [filterM].
  - intros _ Hx. by apply elem_of_nil in Hx.
  - destruct (f y) as [b|] eqn:Hy; [|done]. cbn.
    destruct (filterM f l) as [r|]; [|done]. cbn. intros [= <-] Hx Hfx.
    apply elem_of_cons in Hx as [->|Hx].
    + rewrite Hfx in Hy. injection Hy as <-. left.
    + specialize (IH r eq_refl Hx Hfx). destruct b; [by right|done].
Qed.

Lemma applyFilters_sublist (includeList exceptList filePaths l : list string) :
  applyFilters includeList exceptList filePaths = Ok l → l `sublist_of` filePaths.
Proof.
  unfold applyFilters. intros H.
  destruct (filterM _ (List.filter _ filePaths)) as [l2|] eqn:H2; [|done].
  cbn in H. apply filterM_sublist in H, H2.
  etrans; [done|]. etrans; [done|]. apply filter_sublist.
Qed.

(** X7. With patterns on which [matchesGlob] does not throw, the three
    stages return the paths that pass all three, and nothing else: the
    result is a sub-list of the input (same order, nothing added or
    repeated), and a path of the input is in it iff it has no
    default-excluded segment, is included and is not excluded. *)
Theorem applyFilters_exact (includeList exceptList filePaths : list string) :
  Forall usable includeList → Forall usable exceptList →
  ∃ l, applyFilters includeList exceptList filePaths = Ok l
       ∧ l `sublist_of` filePaths
       ∧ ∀ rel, rel ∈ l
           ↔ rel ∈ filePaths ∧ isDefaultExcluded rel = false
             ∧ isIncluded rel includeList = Ok true
             ∧ isExcluded rel exceptList = Ok false.
Proof.
  intros Hi He.
  destruct (applyFilters_returns includeList exceptList filePaths Hi He)
    as [l Hl].
  exists l. split; [done|]. split; [by eapply applyFilters_sublist|].
  intros rel. split; [by apply applyFilters_elem|].
  intros (Hin & Hdef & Hinc & Hexc). unfold applyFilters in Hl.
  destruct (filterM _ (List.filter _ filePaths)) as [l2|] eqn:H2; [|done].
  cbn in Hl. eapply filterM_keeps; [done| |cbv beta; by rewrite Hexc].
  eapply filterM_keeps; [done| |done].
  apply list_elem_of_In, filter_In. split; [by apply list_elem_of_In|].
  by rewrite Hdef.
Qed.

Lemma applyFilters_exact_witness :
  Forall usable ["**/*.ts"; "*.ts"] ∧ Forall usable ["*.test.ts"]
  ∧ ∃ l, applyFilters ["**/*.ts"; "*.ts"] ["*.test.ts"]
           ["b.ts"; "dist/a.ts"; "a.test.ts"; "src/a.ts"; "a.md"] = Ok l
         ∧ l `sublist_of` ["b.ts"; "dist/a.ts"; "a.test.ts"; "src/a.ts"; "a.md"]
         ∧ ∀ rel, rel ∈ l
             ↔ rel ∈ ["b.ts"; "dist/a.ts"; "a.test.ts"; "src/a.ts"; "a.md"]
               ∧ isDefaultExcluded rel = false
               ∧ isIncluded rel ["**/*.ts"; "*.ts"] = Ok true
               ∧ isExcluded rel ["*.test.ts"] = Ok false.
Proof.
  assert (Forall usable ["**/*.ts"; "*.ts"]) as H1
    by (repeat constructor; by apply usable_no_question).
  assert (Forall usable ["*.test.ts"]) as H2
    by (repeat constructor; by apply usable_no_question).
  exact (conj H1 (conj H2 (applyFilters_exact _ _ _ H1 H2))).
Defined.

End FilterMore.

(** ** Collecting, once more *)

Section CollectMore.
Import JS Glob Collect Git Main Spec.
Variable E : env.

(** X8. The result of [collectPaths] depends on the set of arguments
    only: their order and repetitions make no difference. *)
Theorem collectPaths_set (args1 args2 : list string) :
  (∀ a, a ∈ args1 ↔ a ∈ args2) →
  collectPaths E args1 = collectPaths E args2.
Proof.
  intros Hset.
  destruct (collectLoop_spec E args1) as [Hnd1 Hx1].
  destruct (collectLoop_spec E args2) as [Hnd2 Hx2].
  unfold collectPaths, sort.
  apply (Sorted_unique String.le); [apply Sorted_merge_sort; apply _..|].
  rewrite !merge_sort_Permutation. apply NoDup_Permutation; [done..|].
  intros x. rewrite Hx1, Hx2. split; intros (arg & Harg & Hx); exists arg;
    (split; [by apply Hset|done]).
Qed.

Lemma collectArg_warnings (st : cstate) (arg : string) :
  warnings (collectArg E st arg) = warnings st ++ warningOf E arg.
Proof.
  unfold collectArg, warningOf.
  destruct (statSync E (resolve E arg)); cbn [warn warnings].
  - done.
  - by rewrite addPath_warnings, app_nil_r.
  - by rewrite foldl_addPath_warnings, app_nil_r.
  - done.
Qed.

Lemma foldl_collectArg_warnings (pathArgs : list string) (st : cstate) :
  warnings (foldl (collectArg E) st pathArgs)
  = warnings st ++ flat_map (warningOf E) pathArgs.
Proof.
  revert st. induction pathArgs as [|a l IH]; intros st; cbn [foldl flat_map].
  - by rewrite app_nil_r.
  - by rewrite IH, collectArg_warnings, app_assoc.
Qed.

(** X9. [collectPaths] warns once for every argument that does not exist
    or is neither a file nor a folder, in the order of the arguments and
    with the argument as it was given; the other arguments cause no
    warning. *)
Theorem collectWarnings_each (pathArgs : list string) :
  collectWarnings E pathArgs = flat_map (warningOf E) pathArgs.
Proof. apply (foldl_collectArg_warnings pathArgs (CState ∅ [] [])). Qed.

Lemma listEntry_length (e : dirent) (base : string) :
  length (listEntry E base e) = countEntry e.
Proof.
  revert e base. fix IH 1. intros [name|name children|name] base; [done| |done].
  cbn [listEntry countEntry].
  induction children as [|c cs IHcs]; [done|].
  rewrite length_app, IH, IHcs. done.
Qed.

(** [listFilesRecursive] returns as many paths as there are regular files
    in the tree below the folder. *)
Lemma listFilesRecursive_length (entries : list dirent) (base : string) :
  length (listFilesRecursive E entries base) = countFiles entries.
Proof.
  unfold listFilesRecursive, countFiles.
  induction entries as [|e es IH]; [done|].
  cbn [flat_map foldr]. by rewrite length_app, listEntry_length, IH.
Qed.

(** Induction on a directory entry, with the entries of a folder. *)
Lemma dirent_Forall_ind (P : dirent → Prop) :
  (∀ name, P (FileEnt name)) → (∀ name, P (OtherEnt name)) →
  (∀ name children, Forall P children → P (DirEnt name children)) →
  ∀ e, P e.
Proof.
  intros Hf Ho Hd. fix IH 1. intros [name|name children|name];
    [apply Hf| |apply Ho].
  apply Hd. induction children as [|c cs IHcs]; constructor; [apply IH|exact IHcs].
Qed.

Lemma chainsOf_dir (name : string) (children : list dirent) :
  chainsOf (DirEnt name children) = cons name <$> fileChains children.
Proof.
  cbn [chainsOf]. unfold fileChains.
  induction children as [|c cs IH]; [done|].
  cbn [flat_map]. by rewrite fmap_app, IH.
Qed.

Lemma listEntry_dir (base name : string) (children : list dirent) :
  listEntry E base (DirEnt name children)
  = listFilesRecursive E children (relOf E base name).
Proof.
  cbn [listEntry]. unfold listFilesRecursive.
  induction children as [|c cs IH]; [done|].
  cbn [flat_map]. by rewrite IH.
Qed.

Lemma uniqueNames_dir (name : string) (children : list dirent) :
  uniqueNames (DirEnt name children)
  = bool_decide (NoDup (entName <$> children)) && forallb uniqueNames children.
Proof.
  reflexivity.
Qed.

Lemma elem_of_flat_map {A B} (f : A → list B) (l : list A) (y : B) :
  y ∈ flat_map f l ↔ ∃ x, x ∈ l ∧ y ∈ f x.
Proof.
  rewrite list_elem_of_In, in_flat_map. split; intros (x & Hx & Hy); exists x;
    by rewrite ?list_elem_of_In in *.
Qed.

Lemma listEntry_chains (e : dirent) (base : string) :
  listEntry E base e = joinChain E base <$> chainsOf e.
Proof.
  revert base. induction e as [name|name|name children IH] using dirent_Forall_ind;
    intros base; [done|done|].
  rewrite listEntry_dir, chainsOf_dir. unfold listFilesRecursive, fileChains.
  induction IH as [|c cs Hc _ IHcs]; [done|].
  cbn [flat_map]. rewrite !fmap_app, <- IHcs, Hc. f_equal.
  by rewrite <- list_fmap_compose.
Qed.

Lemma listFilesRecursive_chains (entries : list dirent) (base : string) :
  listFilesRecursive E entries base = joinChain E base <$> fileChains entries.
Proof.
  unfold listFilesRecursive, fileChains.
  induction entries as [|e es IH]; [done|].
  cbn [flat_map]. by rewrite fmap_app, listEntry_chains, IH.
Qed.

Lemma chainsOf_fileAt (e : dirent) (chain : list string) (entries : list dirent) :
  chain ∈ chainsOf e → e ∈ entries → fileAt entries chain.
Proof.
  revert chain entries.
  induction e as [name|name|name children IH] using dirent_Forall_ind;
    intros chain entries Hc He.
  - apply elem_of_cons in Hc as [->|Hc]; [by constructor|].
    by apply elem_of_nil in Hc.
  - by apply elem_of_nil in Hc.
  - rewrite chainsOf_dir in Hc.
    apply list_elem_of_fmap in Hc as (c' & -> & Hc').
    apply elem_of_flat_map in Hc' as (e' & He' & Hc').
    rewrite Forall_forall in IH.
    eapply fileAt_dir; [exact He|]. by eapply IH.
Qed.

Lemma fileChains_fileAt (entries : list dirent) (chain : list string) :
  chain ∈ fileChains entries ↔ fileAt entries chain.
Proof.
  split.
  - intros (e & He & Hc)%elem_of_flat_map. by eapply chainsOf_fileAt.
  - induction 1 as [entries name He|entries name children chain He _ IH];
      apply elem_of_flat_map.
    + exists (FileEnt name). split; [done|]. by left.
    + exists (DirEnt name children). split; [done|].
      rewrite chainsOf_dir. by apply list_elem_of_fmap_2.
Qed.

Lemma chainsOf_head (e : dirent) (chain : list string) :
  chain ∈ chainsOf e → head chain = Some (entName e).
Proof.
  destruct e as [name|name children|name].
  - intros [->|H]%elem_of_cons; [done|]. by apply elem_of_nil in H.
  - rewrite chainsOf_dir. by intros (c' & -> & _)%list_elem_of_fmap.
  - by intros H%elem_of_nil.
Qed.

Lemma fileChains_NoDup (entries : list dirent) :
  NoDup (entName <$> entries) →
  Forall (λ e, NoDup (chainsOf e)) entries →
  NoDup (fileChains entries).
Proof.
  unfold fileChains. induction entries as [|e es IH]; intros Hn Hall.
  - constructor.
  - rewrite fmap_cons in Hn. apply NoDup_cons in Hn as [Hne Hn].
    apply Forall_cons in Hall as [He Hall].
    cbn [flat_map]. apply NoDup_app. split; [done|]. split; [|by apply IH].
    intros c Hc (e' & He' & Hc')%elem_of_flat_map.
    apply chainsOf_head in Hc, Hc'. apply Hne.
    assert (entName e = entName e') as -> by congruence.
    by apply list_elem_of_fmap_2.
Qed.

Lemma chainsOf_NoDup (e : dirent) :
  uniqueNames e = true → NoDup (chainsOf e).
Proof.
  induction e as [name|name|name children IH] using dirent_Forall_ind;
    intros Hu.
  - apply NoDup_singleton.
  - constructor.
  - rewrite uniqueNames_dir in Hu. apply andb_prop in Hu as [Hn Hall].
    apply bool_decide_eq_true in Hn.
    rewrite chainsOf_dir. apply NoDup_fmap_2; [apply _|].
    apply fileChains_NoDup; [done|].
    rewrite forallb_forall in Hall. rewrite Forall_forall in *.
    intros e He. apply IH; [done|]. by apply Hall, list_elem_of_In.
Qed.

(** X10. [listFilesRecursive] returns exactly the paths of the regular
    files of the tree below the folder, sub-folders included, each once and
    in the order of the listings: its result is the list of the chains of
    names that lead to a file, each joined to one path from [base] on.
    Folders and other entries give no path of their own.  When no folder
    holds two entries of one name, the chains are pairwise different, and
    so are the paths as long as [path.join] gives different paths for
    them. *)
Theorem listFilesRecursive_paths (entries : list dirent) (base : string) :
  listFilesRecursive E entries base = joinChain E base <$> fileChains entries
  ∧ (∀ chain, chain ∈ fileChains entries ↔ fileAt entries chain)
  ∧ (∀ p, p ∈ listFilesRecursive E entries base
          ↔ ∃ chain, fileAt entries chain ∧ p = joinChain E base chain)
  ∧ length (listFilesRecursive E entries base) = countFiles entries
  ∧ (NoDup (entName <$> entries) → forallb uniqueNames entries = true →
       NoDup (fileChains entries)
       ∧ ((∀ c1 c2, c1 ∈ fileChains entries → c2 ∈ fileChains entries →
             joinChain E base c1 = joinChain E base c2 → c1 = c2) →
          NoDup (listFilesRecursive E entries base))).
Proof.
  split; [apply listFilesRecursive_chains|].
  split; [apply fileChains_fileAt|].
  split.
  { intros p. rewrite listFilesRecursive_chains, list_elem_of_fmap.
    split; intros (chain & H1 & H2).
    - exists chain. by rewrite <- fileChains_fileAt.
    - exists chain. by rewrite fileChains_fileAt. }
  split; [apply listFilesRecursive_length|].
  intros Hn Hall.
  assert (NoDup (fileChains entries)) as Hnd.
  { apply fileChains_NoDup; [done|].
    rewrite forallb_forall in Hall. apply Forall_forall.
    intros e He. by apply chainsOf_NoDup, Hall, list_elem_of_In. }
  split; [done|]. intros Hinj.
  rewrite listFilesRecursive_chains. by apply NoDup_fmap_2_strong.
Qed.

Lemma sublist_StronglySorted {A} (R : relation A) (l1 l2 : list A) :
  l1 `sublist_of` l2 → StronglySorted R l2 → StronglySorted R l1.
Proof.
  induction 1 as [|x l1 l2 Hsub IH|x l1 l2 Hsub IH]; intros Hs; [done| |].
  - apply StronglySorted_inv in Hs as [Hs Hall]. constructor; [by apply IH|].
    rewrite Forall_forall in *. intros y Hy. apply Hall.
    by eapply elem_of_sublist.
  - apply StronglySorted_inv in Hs as [Hs _]. by apply IH.
Qed.

(** How [selectFiles] gets its result. *)
Lemma selectFiles_inv (o : options) (w : list effect) (l : list string) :
  selectFiles E o = (w, Continue l) →
  ∃ cands l1, candidates E o = (w, Continue cands)
    ∧ applyFilters (includeList o) (exceptList o) cands = Ok l1
    ∧ l = keepFiles E l1.
Proof.
  unfold selectFiles. destruct (candidates E o) as [es [cands|oc]]; [|done].
  cbn. destruct (applyFilters _ _ cands) as [l1|] eqn:Hf; cbn; [|done].
  rewrite !app_nil_r. intros [= <- <-]. by exists cands, l1.
Qed.

(** X11. Every path that reaches the document builder is an existing
    regular file, has no default-excluded segment, is included and is not
    excluded. *)
Theorem selected_files_pass (o : options) (w : list effect) (l : list string) :
  selectFiles E o = (w, Continue l) →
  ∀ rel, rel ∈ l →
    statSync E (resolve E rel) = IsFile
    ∧ isDefaultExcluded rel = false
    ∧ isIncluded rel (includeList o) = Ok true
    ∧ isExcluded rel (exceptList o) = Ok false.
Proof.
  intros H rel Hrel.
  destruct (selectFiles_inv o w l H) as (cands & l1 & _ & Hf & ->).
  unfold keepFiles in Hrel. apply list_elem_of_In, filter_In in Hrel as [Hrel Hst].
  apply list_elem_of_In in Hrel.
  destruct (applyFilters_elem _ _ _ _ _ Hf Hrel) as (_ & ? & ? & ?).
  split; [|done]. by destruct (statSync E (resolve E rel)).
Qed.

(** X12. Without [--git], the files of the document are in lexicographic
    order of their paths and no path comes twice. *)
Theorem selected_files_sorted (o : options) (w : list effect) (l : list string) :
  useGit o = false → selectFiles E o = (w, Continue l) →
  StronglySorted String.le l ∧ NoDup l
  ∧ ∀ rel, rel ∈ l → rel ∈ collectPaths E (pathArgs o).
Proof.
  intros Hgit H.
  destruct (selectFiles_inv o w l H) as (cands & l1 & Hc & Hf & ->).
  unfold candidates in Hc. rewrite Hgit in Hc.
  destruct (pathArgs o) as [|a args] eqn:Hargs; [done|].
  injection Hc as _ <-.
  assert (keepFiles E l1 `sublist_of` collectPaths E (a :: args)) as Hsub.
  { etrans; [apply filter_sublist|]. by eapply applyFilters_sublist. }
  destruct (collectLoop_spec E (a :: args)) as [Hnd _].
  split; [|split].
  - apply (sublist_StronglySorted _ _ _ Hsub).
    apply StronglySorted_merge_sort; apply _.
  - eapply sublist_NoDup; [|exact Hsub].
    unfold collectPaths, sort. by rewrite merge_sort_Permutation.
  - intros rel Hrel. by eapply elem_of_sublist.
Qed.

End CollectMore.

Lemma listFilesRecursive_paths_witness :
  let entries := [FileEnt "b.ts"; FileEnt "a.ts";
                  DirEnt "lib" [FileEnt "c.ts"; OtherEnt "sock"];
                  DirEnt "empty" []] in
  NoDup (Spec.entName <$> entries)
  ∧ forallb Spec.uniqueNames entries = true
  ∧ Collect.listFilesRecursive Spec.treeEnv entries ""
    = ["b.ts"; "a.ts"; "lib/c.ts"]
  ∧ NoDup (Collect.listFilesRecursive Spec.treeEnv entries "").
Proof.
  intros entries.
  assert (NoDup (Spec.entName <$> entries)) as Hn
    by (apply (bool_decide_unpack _); vm_compute; exact I).
  assert (forallb Spec.uniqueNames entries = true) as Hu
    by (vm_compute; reflexivity).
  split; [exact Hn|]. split; [exact Hu|]. split; [reflexivity|].
  pose proof (listFilesRecursive_paths Spec.treeEnv entries "")
    as (_ & _ & _ & _ & H).
  apply (H Hn Hu). intros c1 c2 H1 H2 Heq.
  apply list_elem_of_In in H1, H2. cbn in H1, H2.
  destruct H1 as [<-|[<-|[<-|[]]]], H2 as [<-|[<-|[<-|[]]]];
    first [reflexivity | discriminate Heq].
Defined.

Lemma collectPaths_set_witness :
  (∀ a, a ∈ ["src"; "src/a.ts"; "gone"] ↔ a ∈ ["gone"; "src/a.ts"; "src"; "src"])
  ∧ Collect.collectPaths Spec.treeEnv ["src"; "src/a.ts"; "gone"]
    = Collect.collectPaths Spec.treeEnv ["gone"; "src/a.ts"; "src"; "src"].
Proof.
  assert (∀ a, a ∈ ["src"; "src/a.ts"; "gone"]
               ↔ a ∈ ["gone"; "src/a.ts"; "src"; "src"]) as H.
  { intros a. rewrite !elem_of_cons, !elem_of_nil. tauto. }
  exact (conj H (collectPaths_set Spec.treeEnv _ _ H)).
Defined.

Lemma selected_files_pass_witness :
  Main.selectFiles Spec.treeEnv (Main.parseArgs Spec.treeEnv ["src"])
    = ([], Continue ["src/a.ts"; "src/b.ts"; "src/lib/c.ts"])
  ∧ ("src/lib/c.ts" ∈ ["src/a.ts"; "src/b.ts"; "src/lib/c.ts"])
  ∧ statSync Spec.treeEnv (resolve Spec.treeEnv "src/lib/c.ts") = IsFile
  ∧ Glob.isDefaultExcluded "src/lib/c.ts" = false.
Proof.
  assert (Main.selectFiles Spec.treeEnv (Main.parseArgs Spec.treeEnv ["src"])
          = ([], Continue ["src/a.ts"; "src/b.ts"; "src/lib/c.ts"])) as H
    by (vm_compute; reflexivity).
  assert ("src/lib/c.ts" ∈ ["src/a.ts"; "src/b.ts"; "src/lib/c.ts"]) as Hin
    by (do 2 constructor; constructor).
  pose proof (selected_files_pass Spec.treeEnv _ _ _ H _ Hin) as (H1 & H2 & _).
  exact (conj H (conj Hin (conj H1 H2))).
Defined.

Lemma selected_files_sorted_witness :
  Main.useGit (Main.parseArgs Spec.treeEnv ["gone"; "src"]) = false
  ∧ Main.selectFiles Spec.treeEnv (Main.parseArgs Spec.treeEnv ["gone"; "src"])
    = ([ConsoleWarn "Warning: skipping missing path: gone"],
       Continue ["src/a.ts"; "src/b.ts"; "src/lib/c.ts"])
  ∧ StronglySorted String.le ["src/a.ts"; "src/b.ts"; "src/lib/c.ts"]
  ∧ NoDup ["src/a.ts"; "src/b.ts"; "src/lib/c.ts"].
Proof.
  assert (Main.useGit (Main.parseArgs Spec.treeEnv ["gone"; "src"]) = false)
    as Hg by reflexivity.
  assert (Main.selectFiles Spec.treeEnv
            (Main.parseArgs Spec.treeEnv ["gone"; "src"])
          = ([ConsoleWarn "Warning: skipping missing path: gone"],
             Continue ["src/a.ts"; "src/b.ts"; "src/lib/c.ts"])) as H
    by (vm_compute; reflexivity).
  pose proof (selected_files_sorted Spec.treeEnv _ _ _ Hg H) as (H1 & H2 & _).
  exact (conj Hg (conj H (conj H1 H2))).
Defined.

(** ** The command line *)

Section ArgFacts.
Import JS Glob Collect Git Main Spec.
Variable E : env.

Lemma optionStep_takesValue (a v : string) (o : options) :
  is_Some (optionStep E a v o) ↔ takesValue a v = true.
Proof.
  unfold optionStep, takesValue.
  destruct (truthy v), (String.eqb a "--out"), (String.eqb a "--name"),
    (String.eqb a "--except"), (String.eqb a "--include"); cbn;
    split; (done || by intros [? [=]] || by eexists).
Qed.

Lemma parseLoop_two (a v : string) (rest : list string) (o : options) :
  parseLoop E (a :: v :: rest) o
  = match optionStep E a v o with
    | Some o1 => parseLoop E rest o1
    | None => parseLoop E (v :: rest) (flagOrPath a o)
    end.
Proof.
  unfold optionStep. cbn [parseLoop].
  destruct (truthy v), (String.eqb a "--out"), (String.eqb a "--name"),
    (String.eqb a "--except"), (String.eqb a "--include"); done.
Qed.

(** Induction along the loop of [parseArgs]. *)
Lemma parseLoop_rel (Q : list string → options → options → Prop) :
  (∀ o, Q [] o o) →
  (∀ a o, Q [a] o (flagOrPath a o)) →
  (∀ a v rest o o1 o',
     optionStep E a v o = Some o1 → Q rest o1 o' → Q (a :: v :: rest) o o') →
  (∀ a v rest o o',
     optionStep E a v o = None → Q (v :: rest) (flagOrPath a o) o' →
     Q (a :: v :: rest) o o') →
  ∀ args o, Q args o (parseLoop E args o).
Proof.
  intros Hnil Hone Hopt Hflag args.
  assert (∀ n args, length args < n → ∀ o, Q args o (parseLoop E args o)) as H;
    [|apply (H (S (length args))); lia].
  clear args. induction n as [|n IH]; intros args Hn o; [lia|].
  destruct args as [|a [|v rest]]; [apply Hnil|apply Hone|].
  rewrite parseLoop_two. cbn [length] in Hn.
  destruct (optionStep E a v o) as [o1|] eqn:Hs.
  - eapply Hopt; [done|]. apply IH. lia.
  - apply Hflag; [done|]. apply IH. cbn [length]. lia.
Qed.

Lemma patternList_clean (v : string) : Forall cleanPattern (patternList v).
Proof.
  unfold patternList. apply Forall_forall. intros p Hp.
  apply list_elem_of_In, filter_In in Hp as [Hp Ht].
  apply list_elem_of_In, list_elem_of_fmap in Hp as (q & -> & _).
  split; [by destruct (trim q)|apply trim_idem].
Qed.

Lemma optionStep_patterns (a v : string) (o o1 : options) :
  optionStep E a v o = Some o1 →
  Forall cleanPattern (exceptList o) → Forall cleanPattern (includeList o) →
  Forall cleanPattern (exceptList o1) ∧ Forall cleanPattern (includeList o1).
Proof.
  unfold optionStep. intros H He Hi.
  pose proof (patternList_clean v) as Hv.
  repeat case_match; simplify_eq; cbn; rewrite ?Forall_app; done.
Qed.

Lemma flagOrPath_settings (a : string) (o : options) :
  sameSettings (flagOrPath a o) o.
Proof. unfold flagOrPath, sameSettings. by repeat case_match. Qed.

(** X13. The patterns that [parseArgs] stores are not empty and have no
    white space around them, whatever the command line: empty pieces of a
    comma-separated list are dropped and the others are trimmed. *)
Theorem parseArgs_patterns (argv : list string) :
  Forall cleanPattern (exceptList (parseArgs E argv))
  ∧ Forall cleanPattern (includeList (parseArgs E argv)).
Proof.
  unfold parseArgs.
  apply (parseLoop_rel (λ _ o o',
    Forall cleanPattern (exceptList o) ∧ Forall cleanPattern (includeList o) →
    Forall cleanPattern (exceptList o') ∧ Forall cleanPattern (includeList o')));
    [done| | | |by cbn].
  - intros a o. by destruct (flagOrPath_settings a o) as (_ & _ & -> & ->).
  - intros a v rest o o1 o' Hs IH [He Hi]. apply IH. by eapply optionStep_patterns.
  - intros a v rest o o' _ IH H. apply IH.
    by destruct (flagOrPath_settings a o) as (_ & _ & -> & ->).
Qed.

Lemma optionStep_keeps (a v : string) (o o1 : options) :
  optionStep E a v o = Some o1 →
  useGit o1 = useGit o ∧ pathArgs o1 = pathArgs o.
Proof. unfold optionStep. intros H. by repeat case_match; simplify_eq. Qed.

(** What the loop does to [pathArgs] and [useGit]. *)
Lemma parseLoop_paths (args : list string) (o : options) :
  ∃ extra, pathArgs (parseLoop E args o) = pathArgs o ++ extra
    ∧ extra `sublist_of` args
    ∧ Forall (λ a, startsWith a "--" = false) extra
    ∧ (useGit (parseLoop E args o) = true → useGit o = true ∨ "--git" ∈ args)
    ∧ (useGit o = true → useGit (parseLoop E args o) = true).
Proof.
  revert args o. apply (parseLoop_rel (λ args o o',
    ∃ extra, pathArgs o' = pathArgs o ++ extra
      ∧ extra `sublist_of` args
      ∧ Forall (λ a, startsWith a "--" = false) extra
      ∧ (useGit o' = true → useGit o = true ∨ "--git" ∈ args)
      ∧ (useGit o = true → useGit o' = true))).
  - intros o. exists []. rewrite app_nil_r.
    split; [done|]. split; [done|]. split; [done|]. split; [by left|done].
  - intros a o. unfold flagOrPath.
    destruct (String.eqb_spec a "--git") as [->|Hne].
    + exists []. cbn. rewrite app_nil_r.
      split; [done|]. split; [apply sublist_nil_l|]. split; [done|].
      split; [|done]. intros _. right. left.
    + destruct (startsWith a "--") eqn:Hs; cbn [negb].
      * exists []. rewrite app_nil_r.
        split; [done|]. split; [apply sublist_nil_l|]. split; [done|].
        split; [by left|done].
      * exists [a]. cbn.
        split; [done|]. split; [done|]. split; [by repeat constructor|].
        split; [by left|done].
  - intros a v rest o o1 o' Hs (extra & Hp & Hsub & Hall & Hg & Hg').
    destruct (optionStep_keeps a v o o1 Hs) as [Hu Hpa].
    exists extra. rewrite Hp, Hpa. split; [done|].
    split; [by do 2 apply sublist_cons|]. split; [done|]. split.
    + intros H. destruct (Hg H) as [?|?]; [left; congruence|].
      right. by do 2 right.
    + intros H. apply Hg'. congruence.
  - intros a v rest o o' _ (extra & Hp & Hsub & Hall & Hg & Hg').
    unfold flagOrPath in *.
    destruct (String.eqb_spec a "--git") as [->|Hne]; cbn in *.
    + exists extra. split; [done|]. split; [by apply sublist_cons|].
      split; [done|]. split; [|by auto]. intros _. right. left.
    + destruct (startsWith a "--") eqn:Hs; cbn [negb] in *.
      * exists extra. split; [done|]. split; [by apply sublist_cons|].
        split; [done|]. split; [|done]. intros H.
        destruct (Hg H) as [?|?]; [by left|]. right. by right.
      * exists (a :: extra). cbn in *. rewrite Hp, <- app_assoc.
        split; [done|]. split; [by apply sublist_skip|].
        split; [by constructor|]. split; [|done]. intros H.
        destruct (Hg H) as [?|?]; [by left|]. right. by right.
Qed.

(** X14. The path arguments that [parseArgs] keeps are arguments of the
    command line, in their order, and none of them begins with [--]; and
    [useGit] is set only when [--git] is among the arguments. *)
Theorem parseArgs_paths (argv : list string) :
  pathArgs (parseArgs E argv) `sublist_of` argv
  ∧ Forall (λ a, startsWith a "--" = false) (pathArgs (parseArgs E argv))
  ∧ (useGit (parseArgs E argv) = true → "--git" ∈ argv).
Proof.
  unfold parseArgs.
  destruct (parseLoop_paths argv
              (Options (resolve E "temp/llm-context") None [] [] false []))
    as (extra & -> & Hsub & Hall & Hg & _).
  cbn. repeat split; [done..|]. intros H. by destruct (Hg H).
Qed.

(** X15. A command line on which every argument begins with [--] and none
    is [--git] gives neither paths nor git mode: [main] prints the usage
    text on the error stream and exits with code 1; nothing is read or
    written.  The empty command line is the first example. *)
Theorem usage_error (argv : list string) :
  Forall (λ a, startsWith a "--" = true) argv → "--git" ∉ argv →
  main E argv = ([ConsoleError usage], Stop (Exit 1)).
Proof.
  intros Hall Hgit. unfold main, selectFiles, candidates, parseArgs.
  destruct (parseLoop_paths argv
              (Options (resolve E "temp/llm-context") None [] [] false []))
    as (extra & Hp & Hsub & Hno & Hg & _).
  cbn in Hp, Hg.
  assert (extra = []) as ->.
  { destruct extra as [|x extra]; [done|].
    assert (x ∈ argv) as Hx by (eapply elem_of_sublist; [left|done]).
    rewrite Forall_forall in Hall. specialize (Hall x Hx).
    apply Forall_cons in Hno as [Hno _]. congruence. }
  destruct (useGit (parseLoop E argv _)) eqn:Hu.
  { by destruct Hg. }
  by rewrite Hp.
Qed.

Lemma optionStep_outName (a v : string) (o o1 : options) :
  optionStep E a v o = Some o1 →
  (∀ n, outName o = Some n → n ≠ "") → ∀ n, outName o1 = Some n → n ≠ "".
Proof.
  unfold optionStep. intros H Ho.
  repeat case_match; simplify_eq; cbn; try done.
  intros n [= <-]. by destruct v.
Qed.

Lemma parseArgs_outName (argv : list string) (n : string) :
  outName (parseArgs E argv) = Some n → n ≠ "".
Proof.
  revert n. unfold parseArgs.
  apply (parseLoop_rel (λ _ o o',
    (∀ n, outName o = Some n → n ≠ "") → ∀ n, outName o' = Some n → n ≠ ""));
    [done| | | |done].
  - intros a o. by destruct (flagOrPath_settings a o) as (_ & -> & _).
  - intros a v rest o o1 o' Hs IH H. apply IH. by eapply optionStep_outName.
  - intros a v rest o o' _ IH H. apply IH.
    by destruct (flagOrPath_settings a o) as (_ & -> & _).
Qed.

Lemma noChar_slashesToHyphens (s : string) :
  noChar "/" (slashesToHyphens s) = true.
Proof.
  induction s as [|c s IH]; [done|]. cbn [slashesToHyphens noChar].
  rewrite IH, andb_true_r. destruct (Ascii.eqb_spec c "/") as [->|Hne]; [done|].
  apply negb_true_iff, Ascii.eqb_neq. congruence.
Qed.

Lemma noChar_stripHyphensStart (c : ascii) (s : string) :
  noChar c s = true → noChar c (stripHyphensStart s) = true.
Proof.
  induction s as [|c' s IH]; [done|]. cbn [stripHyphensStart noChar].
  intros H. destruct (Ascii.eqb c' "-"); [|done].
  apply IH. by apply andb_prop in H as [_ ?].
Qed.

Lemma noChar_stripHyphensEnd (c : ascii) (s : string) :
  noChar c s = true → noChar c (stripHyphensEnd s) = true.
Proof.
  induction s as [|c' s IH]; [done|]. cbn [stripHyphensEnd noChar].
  intros H. apply andb_prop in H as [Hc H]. specialize (IH H).
  destruct (stripHyphensEnd s); [|cbn [noChar] in *; by rewrite Hc].
  destruct (Ascii.eqb c' "-"); [done|]. cbn [noChar]. by rewrite Hc.
Qed.

Lemma stripHyphensStart_head (s : string) :
  stripHyphensStart s = ""
  ∨ ∃ c r, stripHyphensStart s = String c r ∧ c ≠ "-"%char.
Proof.
  induction s as [|c s IH]; [by left|]. cbn [stripHyphensStart].
  destruct (Ascii.eqb_spec c "-") as [->|Hne]; [done|].
  right. by exists c, s.
Qed.

Lemma stripHyphensEnd_head (c : ascii) (r : string) :
  c ≠ "-"%char → ∃ r', stripHyphensEnd (String c r) = String c r'.
Proof.
  intros Hc. cbn [stripHyphensEnd]. apply Ascii.eqb_neq in Hc.
  destruct (stripHyphensEnd r); [rewrite Hc|]; by eexists.
Qed.

Lemma stripHyphensEnd_last (s : string) :
  endsWith (stripHyphensEnd s) "-" = false.
Proof.
  induction s as [|c s IH]; [done|]. cbn [stripHyphensEnd].
  destruct (stripHyphensEnd s) as [|c' t] eqn:Ht.
  - destruct (Ascii.eqb_spec c "-") as [->|Hne]; [done|].
    cbn. apply Ascii.eqb_neq in Hne. by rewrite Hne.
  - change (endsWith (String c (String c' t)) "-")
      with (String.eqb (String c (String c' t)) "-" || endsWith (String c' t) "-").
    rewrite IH, orb_false_r. cbn. by destruct (Ascii.eqb c "-").
Qed.

Lemma stripHyphens_shape (s : string) :
  startsWith (stripHyphens s) "-" = false
  ∧ endsWith (stripHyphens s) "-" = false.
Proof.
  unfold stripHyphens. split; [|apply stripHyphensEnd_last].
  destruct (stripHyphensStart_head s) as [->|(c & r & -> & Hc)]; [done|].
  destruct (stripHyphensEnd_head c r Hc) as [r' ->].
  unfold startsWith. by apply prefix_ne.
Qed.

(** X16. The name of the output file is never empty.  When no [--name] is
    given it is also a plain file name: it holds no [/] and neither begins
    nor ends with a hyphen. *)
Theorem resolvedName_shape :
  (∀ argv, resolvedName (parseArgs E argv) ≠ "")
  ∧ (∀ o, outName o = None →
       resolvedName o ≠ ""
       ∧ noChar "/" (resolvedName o) = true
       ∧ startsWith (resolvedName o) "-" = false
       ∧ endsWith (resolvedName o) "-" = false).
Proof.
  assert (∀ o, outName o = None →
       resolvedName o ≠ ""
       ∧ noChar "/" (resolvedName o) = true
       ∧ startsWith (resolvedName o) "-" = false
       ∧ endsWith (resolvedName o) "-" = false) as H.
  { intros o Ho. unfold resolvedName. rewrite Ho.
    destruct (useGit o); [done|].
    destruct (pathArgs o) as [|first [|second rest]]; [done| |done].
    destruct (stripHyphens (slashesToHyphens first)) as [|c n] eqn:Hn; [done|].
    cbn [truthy]. rewrite <- Hn. split; [by rewrite Hn|].
    split; [|apply stripHyphens_shape].
    apply noChar_stripHyphensEnd, noChar_stripHyphensStart,
      noChar_slashesToHyphens. }
  split; [|done]. intros argv.
  destruct (outName (parseArgs E argv)) as [n|] eqn:Ho; [|by apply H].
  unfold resolvedName. rewrite Ho. by eapply parseArgs_outName.
Qed.

End ArgFacts.

Lemma usage_error_witness :
  Forall (λ a, JS.startsWith a "--" = true) ["--out"; "--verbose"; "--name"]
  ∧ ("--git" ∉ ["--out"; "--verbose"; "--name"])
  ∧ Main.main Spec.treeEnv ["--out"; "--verbose"; "--name"]
    = ([ConsoleError Main.usage], Stop (Exit 1)).
Proof.
  assert (Forall (λ a, JS.startsWith a "--" = true)
            ["--out"; "--verbose"; "--name"]) as H1 by (repeat constructor).
  assert ("--git" ∉ ["--out"; "--verbose"; "--name"]) as H2.
  { rewrite !elem_of_cons, elem_of_nil. by intros [?|[?|[?|?]]]. }
  exact (conj H1 (conj H2 (usage_error Spec.treeEnv _ H1 H2))).
Defined.

Lemma resolvedName_shape_witness :
  Main.outName (Main.parseArgs Spec.treeEnv ["/apps/web/src-/"]) = None
  ∧ Main.resolvedName (Main.parseArgs Spec.treeEnv ["/apps/web/src-/"])
    = "apps-web-src"
  ∧ Spec.noChar "/" (Main.resolvedName (Main.parseArgs Spec.treeEnv ["/apps/web/src-/"]))
    = true.
Proof.
  assert (Main.outName (Main.parseArgs Spec.treeEnv ["/apps/web/src-/"]) = None)
    as H by reflexivity.
  exact (conj H (conj eq_refl
    (proj1 (proj2 (proj2 (resolvedName_shape Spec.treeEnv) _ H))))).
Defined.

(** ** Runs of [main] and of the wrapper *)

Section RunFacts.
Import JS Glob Collect Git Main Spec.
Variable E : env.

Lemma passLoop_two (a v : string) (rest acc : list string) :
  Wrapper.passLoop (a :: v :: rest) acc
  = if takesValue a v then Wrapper.passLoop rest (acc ++ [a; v])
    else Wrapper.passLoop (v :: rest) acc.
Proof.
  cbn [Wrapper.passLoop]. unfold takesValue.
  destruct (truthy v); cbn [andb]; [|by rewrite !andb_false_r].
  rewrite !andb_true_r.
  destruct (String.eqb_spec a "--out") as [->|_]; [done|].
  destruct (String.eqb_spec a "--name") as [->|_]; [done|].
  destruct (String.eqb_spec a "--except") as [->|_]; [done|].
  by destruct (String.eqb_spec a "--include") as [->|_].
Qed.

Lemma passLoop_acc (args acc : list string) :
  Wrapper.passLoop args acc = acc ++ Wrapper.passLoop args [].
Proof.
  assert (∀ n args, length args < n → ∀ acc,
            Wrapper.passLoop args acc = acc ++ Wrapper.passLoop args []) as H;
    [|apply (H (S (length args))); lia].
  clear. induction n as [|n IH]; intros args Hn acc; [lia|].
  destruct args as [|a [|v rest]]; [by rewrite app_nil_r..|].
  cbn [length] in Hn. rewrite !passLoop_two. destruct (takesValue a v).
  - rewrite (IH rest ltac:(lia) (acc ++ [a; v])).
    rewrite (IH rest ltac:(lia) ([] ++ [a; v])).
    by rewrite app_nil_l, app_assoc.
  - apply IH. cbn [length]. lia.
Qed.

Lemma optionStep_settings (a v : string) (o1 o2 o1' : options) :
  sameSettings o1 o2 → optionStep E a v o1 = Some o1' →
  ∃ o2', optionStep E a v o2 = Some o2' ∧ sameSettings o1' o2'.
Proof.
  unfold sameSettings, optionStep. intros (H1 & H2 & H3 & H4) H.
  repeat case_match; simplify_eq; eexists; (split; [done|]); cbn;
    by rewrite ?H1, ?H2, ?H3, ?H4.
Qed.

Lemma optionStep_None (a v : string) (o1 o2 : options) :
  optionStep E a v o1 = None → optionStep E a v o2 = None.
Proof. unfold optionStep. by repeat case_match. Qed.

Lemma sameSettings_trans (o1 o2 o3 : options) :
  sameSettings o1 o2 → sameSettings o2 o3 → sameSettings o1 o3.
Proof. unfold sameSettings. intros (?&?&?&?) (?&?&?&?). repeat split; congruence. Qed.

Lemma sameSettings_sym (o1 o2 : options) :
  sameSettings o1 o2 → sameSettings o2 o1.
Proof. unfold sameSettings. intros (?&?&?&?). done. Qed.

(** The arguments that the wrapper passes on are parsed to the settings of
    the arguments it got; they add no path and do not touch [useGit]. *)
Lemma parse_passed (args : list string) (o1 o2 : options) :
  sameSettings o1 o2 →
  sameSettings (parseLoop E (Wrapper.passLoop args []) o1) (parseLoop E args o2)
  ∧ useGit (parseLoop E (Wrapper.passLoop args []) o1) = useGit o1
  ∧ pathArgs (parseLoop E (Wrapper.passLoop args []) o1) = pathArgs o1.
Proof.
  assert (∀ n args, length args < n → ∀ o1 o2, sameSettings o1 o2 →
    sameSettings (parseLoop E (Wrapper.passLoop args []) o1) (parseLoop E args o2)
    ∧ useGit (parseLoop E (Wrapper.passLoop args []) o1) = useGit o1
    ∧ pathArgs (parseLoop E (Wrapper.passLoop args []) o1) = pathArgs o1) as H;
    [|apply (H (S (length args))); lia].
  clear. induction n as [|n IH]; intros args Hn o1 o2 Hs; [lia|].
  destruct args as [|a [|v rest]].
  - done.
  - cbn. split; [|done].
    eapply sameSettings_trans; [done|]. apply sameSettings_sym, flagOrPath_settings.
  - cbn [length] in Hn. rewrite passLoop_two, (parseLoop_two E a v rest o2).
    destruct (takesValue a v) eqn:Ht.
    + rewrite passLoop_acc. cbn [app]. rewrite parseLoop_two.
      destruct (proj2 (optionStep_takesValue E a v o1) Ht) as [o1' Ho1].
      destruct (optionStep_settings a v o1 o2 o1' Hs Ho1) as (o2' & Ho2 & Hs').
      rewrite Ho1, Ho2.
      destruct (IH rest ltac:(lia) o1' o2' Hs') as (H1 & H2 & H3).
      destruct (optionStep_keeps E a v o1 o1' Ho1) as [Hg Hp].
      by rewrite <- Hg, <- Hp.
    + destruct (optionStep E a v o2) as [o2'|] eqn:Ho2.
      { assert (is_Some (optionStep E a v o2)) as Hsome by (by eexists).
        apply optionStep_takesValue in Hsome. congruence. }
      apply IH; [cbn [length]; lia|].
      eapply sameSettings_trans; [done|]. apply sameSettings_sym, flagOrPath_settings.
Qed.

Lemma parseLoop_git (args : list string) (o : options) :
  parseLoop E ("--git" :: args) o = parseLoop E args (flagOrPath "--git" o).
Proof.
  destruct args as [|v rest]; [done|].
  rewrite parseLoop_two. unfold optionStep. by destruct (truthy v).
Qed.

(** In git mode [main] looks at the settings only. *)
Lemma main_git (argv1 argv2 : list string) :
  sameSettings (parseArgs E argv1) (parseArgs E argv2) →
  useGit (parseArgs E argv1) = true → useGit (parseArgs E argv2) = true →
  main E argv1 = main E argv2.
Proof.
  intros (H1 & H2 & H3 & H4) Hg1 Hg2.
  unfold main, selectFiles, candidates, resolvedName.
  by rewrite Hg1, Hg2, H1, H2, H3, H4.
Qed.

(** X17. The wrapper [merge-git-changed-to-md.js] is [merge-to-md.js
    --git] with the same command line: the arguments it passes on are
    parsed to git mode without paths and to the output directory, name and
    patterns of its own arguments, so the run does what [main] does for
    [--git] followed by these arguments and ends with its exit status. *)
Theorem wrapper_is_git_mode (args : list string) :
  let o := parseArgs E (Wrapper.parseArgs args) in
  useGit o = true ∧ pathArgs o = []
  ∧ sameSettings o (parseArgs E args)
  ∧ main E (Wrapper.parseArgs args) = main E ("--git" :: args)
  ∧ Wrapper.run E args
    = ((main E ("--git" :: args)).1, Wrapper.status (main E ("--git" :: args)).2).
Proof.
  set (o0 := Options (resolve E "temp/llm-context") None [] [] false []).
  assert (parseArgs E (Wrapper.parseArgs args)
          = parseLoop E (Wrapper.passLoop args []) (flagOrPath "--git" o0)) as Ho.
  { unfold parseArgs, Wrapper.parseArgs. rewrite passLoop_acc. cbn [app].
    apply parseLoop_git. }
  assert (parseArgs E ("--git" :: args)
          = parseLoop E args (flagOrPath "--git" o0)) as Hm
    by apply parseLoop_git.
  destruct (parse_passed args (flagOrPath "--git" o0) (flagOrPath "--git" o0))
    as (Hs & Hg & Hp); [done|].
  destruct (parse_passed args (flagOrPath "--git" o0) o0) as (Hs0 & _ & _);
    [apply flagOrPath_settings|].
  assert (main E (Wrapper.parseArgs args) = main E ("--git" :: args)) as Hmain.
  { apply main_git.
    - by rewrite Ho, Hm.
    - by rewrite Ho, Hg.
    - rewrite Hm.
      destruct (parseLoop_paths E args (flagOrPath "--git" o0))
        as (_ & _ & _ & _ & _ & H).
      by apply H. }
  cbv zeta. split; [by rewrite Ho, Hg|]. split; [by rewrite Ho, Hp|].
  split; [by rewrite Ho|]. split; [exact Hmain|].
  unfold Wrapper.run. rewrite Hmain. by destruct (main E ("--git" :: args)).
Qed.

Lemma selectFiles_stop (o : options) (w : list effect) (oc : outcome) :
  selectFiles E o = (w, Stop oc) →
  (w = [ConsoleError usage] ∧ oc = Exit 1) ∨ ∃ e, oc = Uncaught e.
Proof.
  unfold selectFiles, candidates. destruct (useGit o).
  - destruct (getGitChangedFiles E) as [l|e]; cbn.
    + destruct (applyFilters _ _ l); cbn; intros [= <- <-]; eauto.
    + intros [= <- <-]. eauto.
  - destruct (pathArgs o); cbn.
    + intros [= <- <-]. by left.
    + destruct (applyFilters _ _ _); cbn; intros [= <- <-]; eauto.
Qed.

(** X18. Every run of [main] ends in one of four ways: the usage error
    with exit code 1; an uncaught exception; the notice that nothing is
    left, with exit code 0; or a completed run that creates the output
    directory, writes the document of the selected files once and reports.
    Nothing before these last three steps creates a directory or writes a
    file, so only the completed run does.  The exit status is 0 or 1. *)
Theorem main_outcomes (argv : list string) :
  (main E argv = ([ConsoleError usage], Stop (Exit 1))
   ∨ (∃ w e, main E argv = (w, Stop (Uncaught e))
             ∧ Forall (λ x, writes x = false) w)
   ∨ (∃ w, main E argv
           = (w ++ [ConsoleLog "No files to merge after filtering."], Stop (Exit 0))
           ∧ Forall (λ x, writes x = false) w)
   ∨ (∃ w filePaths,
        filePaths ≠ []
        ∧ selectFiles E (parseArgs E argv) = (w, Continue filePaths)
        ∧ Forall (λ x, writes x = false) w
        ∧ let o := parseArgs E argv in
          let blocks := blocksOf E filePaths in
          let outPath := pathJoin E (outDir o) (resolvedName o +:+ ".md") in
          main E argv
          = (w ++ [MkdirSync (outDir o);
                   WriteFileSync outPath
                     (Doc.output (Doc.entries filePaths blocks) blocks);
                   ConsoleLog ("Wrote " +:+ numToString (length filePaths) +:+
                               " files to " +:+ relative E outPath)],
             Continue tt)))
  ∧ Wrapper.status (main E argv).2 ≤ 1.
Proof.
  assert (Forall (λ x, writes x = false) (selectFiles E (parseArgs E argv)).1)
    as Hq by (rewrite selectFiles_effects; apply candidates_quiet).
  destruct (selectFiles E (parseArgs E argv)) as [w [l|oc]] eqn:Hsel;
    cbn [fst] in Hq.
  - destruct l as [|p l].
    + assert (main E argv
              = (w ++ [ConsoleLog "No files to merge after filtering."],
                 Stop (Exit 0))) as Hm by (unfold main; by rewrite Hsel).
      split; [|rewrite Hm; cbn; lia]. right. right. left. by exists w.
    + pose proof (main_writes_document E argv w (p :: l) Hsel) as Hm.
      specialize (Hm ltac:(done)). cbv zeta in Hm.
      split; [|rewrite Hm; cbn; lia]. right. right. right. by exists w, (p :: l).
  - assert (main E argv = (w, Stop oc)) as Hm by (unfold main; by rewrite Hsel).
    destruct (selectFiles_stop _ _ _ Hsel) as [[-> ->]|[e ->]].
    + split; [by left|rewrite Hm; cbn; lia].
    + split; [|rewrite Hm; cbn; lia]. right. left. by exists w, e.
Qed.

(** X19. In git mode a failure of the [git] command ends the run with the
    exception of [execSync], uncaught: the script logs nothing and creates
    or writes no file, and the other arguments make no difference. *)
Theorem git_failure (args : list string) (e : exn) :
  gitStatus E = Throw e →
  main E ("--git" :: args) = ([], Stop (Uncaught e)).
Proof.
  intros Hgit. unfold main, selectFiles, candidates.
  assert (useGit (parseArgs E ("--git" :: args)) = true) as ->.
  { unfold parseArgs. rewrite parseLoop_git.
    destruct (parseLoop_paths E args
                (flagOrPath "--git"
                   (Options (resolve E "temp/llm-context") None [] [] false [])))
      as (_ & _ & _ & _ & _ & H).
    by apply H. }
  unfold getGitChangedFiles. by rewrite Hgit.
Qed.

End RunFacts.

Lemma git_failure_witness :
  let E := Env (resolve Spec.treeEnv) (relative Spec.treeEnv)
               (pathJoin Spec.treeEnv) (statSync Spec.treeEnv)
               (readFileSync Spec.treeEnv) (Throw ExecError) in
  gitStatus E = Throw ExecError
  ∧ Main.main E ["--git"; "--name"; "x"; "src"] = ([], Stop (Uncaught ExecError)).
Proof.
  intros E. split; [reflexivity|].
  apply (git_failure E ["--name"; "x"; "src"] ExecError). reflexivity.
Defined.

(** ** The line ranges of the index *)

Section IndexFacts.
Import JS NodePath Doc Spec.

Lemma flat_map_take_le {A B} (f : A → list B) (k : nat) (l : list A) :
  length (flat_map f (take k l)) ≤ length (flat_map f l).
Proof.
  rewrite <- (take_drop k l) at 2. rewrite flat_map_app, length_app. lia.
Qed.

Lemma layout_size (ps bs : list string) (cur i : nat) (e : entry) :
  layout ps bs cur !! i = Some e →
  ∃ b, bs !! i = Some b ∧ endLine e + 1 = startLine e + length (lines b).
Proof.
  revert ps cur i. induction bs as [|b bs IH]; intros [|p ps] cur i; try done.
  cbn [layout]. destruct i as [|i]; cbn [lookup list_lookup].
  - intros [= <-]. exists b. split; [done|].
    cbn [startLine endLine]. pose proof (length_lines_pos b). lia.
  - apply IH.
Qed.

(** An entry starts after the lines of the blocks before it. *)
Lemma layout_start (ps bs : list string) (cur i : nat) (e : entry) :
  layout ps bs cur !! i = Some e →
  startLine e = cur + length (flat_map lines (take i bs)).
Proof.
  revert ps cur i. induction bs as [|b bs IH]; intros [|p ps] cur i; try done.
  cbn [layout]. destruct i as [|i]; cbn [lookup list_lookup].
  - intros [= <-]. cbn. lia.
  - intros H. apply IH in H. rewrite H.
    cbn [take flat_map]. rewrite length_app. lia.
Qed.

Lemma layout_end (ps bs : list string) (cur i : nat) (e : entry) :
  layout ps bs cur !! i = Some e →
  endLine e + 1 = cur + length (flat_map lines (take (S i) bs)).
Proof.
  intros H. destruct (layout_size _ _ _ _ _ H) as (b & Hb & Hlen).
  apply layout_start in H.
  rewrite (take_S_r _ _ _ Hb), flat_map_app, length_app.
  cbn [flat_map]. rewrite app_nil_r. lia.
Qed.

Lemma layout_disjoint (ps bs : list string) (cur i j : nat) (e e' : entry) :
  i < j → layout ps bs cur !! i = Some e → layout ps bs cur !! j = Some e' →
  endLine e < startLine e'.
Proof.
  intros Hij Hi Hj. apply layout_end in Hi. apply layout_start in Hj.
  pose proof (flat_map_take_le lines (S i) (take j bs)) as Hle.
  rewrite take_take in Hle. replace (S i `min` j) with (S i) in Hle by lia.
  lia.
Qed.

Lemma layout_cover (ps bs : list string) (cur n : nat) :
  length ps = length bs →
  cur ≤ n < cur + length (flat_map lines bs) →
  ∃ i e, layout ps bs cur !! i = Some e ∧ startLine e ≤ n ≤ endLine e.
Proof.
  revert ps cur. induction bs as [|b bs IH]; intros [|p ps] cur Hlen Hn;
    try done; [cbn in Hn; lia|].
  cbn [flat_map] in Hn. rewrite length_app in Hn.
  destruct (decide (n < cur + length (lines b))) as [Hlt|Hge].
  - exists 0, (Entry p cur (cur + length (lines b) - 1)).
    split; [done|]. cbn. lia.
  - destruct (IH ps (cur + length (lines b))) as (i & e & He & Hr);
      [by injection Hlen|lia|].
    by exists (S i), e.
Qed.

Lemma length_lines_block (relPath content : string) :
  4 ≤ length (lines (block relPath content)).
Proof.
  rewrite lines_block, !length_app.
  pose proof (length_lines_pos (fence +:+ opening relPath)).
  pose proof (length_lines_pos content). cbn [length]. lia.
Qed.

Section Index.
Variable E : env.
Variable filePaths : list string.

Let blocks := Main.blocksOf E filePaths.
Let es := entries filePaths blocks.
Let doc := output es blocks.

(** X20. The index has one entry for each file, in the order of the
    files, and its line ranges follow one another without gap or overlap:
    a range starts on the line after the end of the range before it, the
    ranges of two files have no line in common, and a range holds at least
    four lines (the opening fence, the content, the closing fence and the
    empty line). *)
Theorem index_tiles :
  relPath <$> es = filePaths
  ∧ (∀ i e e', es !! i = Some e → es !! S i = Some e' →
       startLine e' = endLine e + 1)
  ∧ (∀ i j e e', i < j → es !! i = Some e → es !! j = Some e' →
       endLine e < startLine e')
  ∧ (∀ e, e ∈ es → startLine e + 3 ≤ endLine e).
Proof.
  split; [|split; [|split]].
  - apply layout_relPath. unfold blocks, Main.blocksOf. by rewrite length_fmap.
  - intros i e e' He He'. apply layout_end in He. apply layout_start in He'.
    lia.
  - intros i j e e' Hij He He'. by eapply layout_disjoint.
  - intros e [i He]%list_elem_of_lookup.
    destruct (layout_size _ _ _ _ _ He) as (b & Hb & Hlen).
    unfold blocks, Main.blocksOf in Hb. rewrite list_lookup_fmap in Hb.
    destruct (filePaths !! i) as [p|]; [|done]. injection Hb as <-.
    pose proof (length_lines_block p (readFileSync E (resolve E p))). lia.
Qed.

Hypothesis paths_nonempty : filePaths ≠ [].
Hypothesis paths_one_line : Forall (λ p, noChar LF p = true) filePaths.

(** X21. For a non-empty list of files whose paths hold no newline, the
    ranges of the index cover the document from the first line after the
    index to the last line: the range of the last file ends on the last
    line of the document, and every line from [N + 6] on lies in the range
    of exactly one file. *)
Theorem index_covers_document :
  (∀ e, last es = Some e → endLine e = length (lines doc))
  ∧ (∀ n, length filePaths + 6 ≤ n ≤ length (lines doc) →
       ∃ i e, es !! i = Some e ∧ startLine e ≤ n ≤ endLine e
         ∧ ∀ j e', es !! j = Some e' → startLine e' ≤ n ≤ endLine e' → j = i).
Proof.
  pose proof (doc_lines E filePaths paths_nonempty paths_one_line) as Hdoc.
  pose proof (length_es E filePaths) as Hes.
  pose proof (length_blocks E filePaths) as Hbl.
  cbv zeta in Hdoc, Hes, Hbl. fold blocks in Hdoc, Hes, Hbl.
  fold es in Hdoc, Hes. fold doc in Hdoc.
  assert (length (lines doc)
          = length filePaths + 5 + length (flat_map lines blocks)) as Hlen.
  { rewrite Hdoc, lines_tocHeader, !length_app, length_fmap, Hes.
    cbn [length]. lia. }
  assert (es = layout filePaths blocks (length filePaths + 6)) as Hlay.
  { unfold es, entries, tocLineCount. rewrite lines_tocHeader, Hbl.
    cbn [length]. f_equal. lia. }
  split.
  - intros e He. rewrite last_lookup in He. rewrite Hlay in He.
    apply layout_end in He. rewrite <- Hlay, Hes in He.
    rewrite take_ge in He; [lia|]. rewrite Hbl.
    destruct filePaths; [done|cbn; lia].
  - intros n Hn.
    destruct (layout_cover filePaths blocks (length filePaths + 6) n)
      as (i & e & He & Hr); [by rewrite Hbl|lia|].
    rewrite <- Hlay in He. exists i, e. split; [done|]. split; [done|].
    intros j e' He' Hr'.
    destruct (Nat.lt_trichotomy j i) as [Hlt|[->|Hgt]]; [|done|].
    + pose proof (layout_disjoint _ _ _ _ _ _ _ Hlt
                    (eq_ind _ (λ l, l !! j = Some e') He' _ Hlay)
                    (eq_ind _ (λ l, l !! i = Some e) He _ Hlay)). lia.
    + pose proof (layout_disjoint _ _ _ _ _ _ _ Hgt
                    (eq_ind _ (λ l, l !! i = Some e) He _ Hlay)
                    (eq_ind _ (λ l, l !! j = Some e') He' _ Hlay)). lia.
Qed.

End Index.

End IndexFacts.

Lemma index_covers_document_witness :
  let E := Spec.filesEnv (λ p, "x of " +:+ p +:+ JS.nl) in
  let blocks := Main.blocksOf E ["a.ts"; "b.md"] in
  let es := Doc.entries ["a.ts"; "b.md"] blocks in
  let doc := Doc.output es blocks in
  ["a.ts"; "b.md"] ≠ []
  ∧ Forall (λ p, Spec.noChar JS.LF p = true) ["a.ts"; "b.md"]
  ∧ es = [Doc.Entry "a.ts" 8 12; Doc.Entry "b.md" 13 17]
  ∧ length (Doc.lines doc) = 17
  ∧ (∀ e, last es = Some e → Doc.endLine e = length (Doc.lines doc)).
Proof.
  assert (["a.ts"; "b.md"] ≠ []) as H1 by done.
  assert (Forall (λ p, Spec.noChar JS.LF p = true) ["a.ts"; "b.md"]) as H2
    by (repeat constructor).
  split; [exact H1|]. split; [exact H2|]. split; [reflexivity|].
  split; [reflexivity|].
  exact (proj1 (index_covers_document
                  (Spec.filesEnv (λ p, "x of " +:+ p +:+ JS.nl))
                  ["a.ts"; "b.md"] H1 H2)).
Defined.

(** ** More on the files that [git] reports *)

Section GitMore.
Import JS Git Spec.

Lemma gitLine_one (line : string) :
  gitLine [] line = []
  ∨ ∃ p, gitLine [] line = [p] ∧ trim p = p
      ∧ whitespaceOnly line = false ∧ deleteFlag line = false.
Proof.
  unfold gitLine. rewrite truthy_trim, negb_involutive.
  destruct (whitespaceOnly line) eqn:Hw; [by left|].
  rewrite !charIs_status by lia. fold (deleteFlag line).
  destruct (deleteFlag line) eqn:Hd; [by left|].
  right. eexists. split; [done|].
  split; [|done]. destruct (includes _ _); apply trim_idem.
Qed.

(** X22. The paths that [getGitChangedFiles] returns carry no white space
    at either end, each comes from a line of the output that is neither
    blank nor marked deleted, and there are at most as many paths as
    lines. *)
Theorem changed_files_trimmed (out : string) :
  Forall (λ p, trim p = p
               ∧ ∃ line, line ∈ split nl out ∧ gitLine [] line = [p]
                   ∧ whitespaceOnly line = false ∧ deleteFlag line = false)
    (changedFiles out)
  ∧ length (changedFiles out) ≤ length (split nl out).
Proof.
  unfold changedFiles. rewrite foldl_gitLine, app_nil_l.
  induction (split nl out) as [|line ls [IH1 IH2]]; [by split|].
  cbn [flat_map]. rewrite length_app, Forall_app.
  destruct (gitLine_one line) as [->|(p & Hg & Hp & Hw & Hd)]; [|rewrite Hg].
  - split; [split; [done|]|cbn; lia].
    eapply Forall_impl; [exact IH1|]. intros p (Hp & l & Hl & H).
    split; [done|]. exists l. split; [by right|done].
  - split; [split|cbn; lia].
    + constructor; [|done]. split; [done|]. exists line.
      split; [apply elem_of_cons; by left|done].
    + eapply Forall_impl; [exact IH1|]. intros q (Hq & l & Hl & H).
      split; [done|]. exists l. split; [by right|done].
Qed.

End GitMore.
